(** * Sliding window service of the job-output view

    A shallow embedding of [awx/ui/client/features/output/slide.service.js]
    and the properties of its window arithmetic, edge operations,
    reconciler ([move]) and paging operations. *)

From stdpp Require Import gmap strings list fin_maps fin_sets.
From Stdlib Require Import ZArith Lia.

Open Scope Z_scope.
#[local] Set Warnings "-clear-no-such-hyp".

(** ** JavaScript numbers

    The service only ever computes with integers, but the bounds handed to
    [move] come from callers and may be [NaN] or infinite, and
    [Math.max()] of no argument is [-Infinity].  Integers are [Z]; the
    three non-finite values are kept apart. *)

Inductive num :=
| Fin (z : Z)
| PosInf
| NegInf
| NaN.

Definition Number_isFinite (x : num) : bool :=
  match x with Fin _ => true | _ => false end.

(** [Math.max(x, y)]: [NaN] is contagious, [-Infinity] is neutral. *)
Definition Math_max (x y : num) : num :=
  match x, y with
  | NaN, _ | _, NaN => NaN
  | PosInf, _ | _, PosInf => PosInf
  | NegInf, z | z, NegInf => z
  | Fin a, Fin b => Fin (Z.max a b)
  end.

(** [Math.min(x, y)]. *)
Definition Math_min (x y : num) : num :=
  match x, y with
  | NaN, _ | _, NaN => NaN
  | NegInf, _ | _, NegInf => NegInf
  | PosInf, z | z, PosInf => z
  | Fin a, Fin b => Fin (Z.min a b)
  end.

(** [x > y]; every comparison with [NaN] is false. *)
Definition num_gt (x y : num) : bool :=
  match x, y with
  | NaN, _ | _, NaN => false
  | NegInf, _ => false
  | _, PosInf => false
  | PosInf, _ => true
  | Fin _, NegInf => true
  | Fin a, Fin b => b <? a
  end.

(** [Math.max(...keys)] and [Math.min(...keys)] over a spread array. *)
Definition Math_max_spread (keys : list Z) : num :=
  foldr (λ k acc, Math_max (Fin k) acc) NegInf keys.

Definition Math_min_spread (keys : list Z) : num :=
  foldr (λ k acc, Math_min (Fin k) acc) PosInf keys.

(** ** Range arithmetic (lines 15-77) *)

Definition range : Type := Z * Z.

Definition checkRangeOverlap (r other : range) : bool :=
  let span := Z.max r.2 other.2 - Z.min r.1 other.1 in
  span <=? (r.2 - r.1) + (other.2 - other.1).

(** [false] is [None]; an overlap array is a pair. *)
Definition getOverlapArray (r other : range) : option (Z * Z) :=
  if negb (checkRangeOverlap r other) then None
  else Some (r.1 - other.1, other.2 - r.2).

(** [move] applies the boundary to the caller's raw bounds. *)
Definition getBoundedRange (r other : num * num) : num * num :=
  (Math_max r.1 other.1, Math_min r.2 other.2).

(** ** Window state (lines 79-108)

    An event as the source delivers it, and what the service keeps of it:
    [this.records[counter] = { start_line, end_line }] and
    [this.uuids[counter] = uuid]. *)

Record event := Event {
  counter : Z;
  start_line : Z;
  end_line : Z;
  uuid : string;
}.

Record lines := Lines {
  rec_start_line : Z;
  rec_end_line : Z;
}.

(** Calls that reach the two collaborators, [this.storage] (the sink) and
    [this.api] (the source). *)
Inductive call :=
| StorageAppend (events : list event)
| StoragePrepend (events : list event)
| StoragePop (n : Z)
| StorageShift (n : Z)
| StorageDeleteRecord (id : option string)
| ApiGetRange (r : range)
| ApiGetFirst
| ApiGetLast
| ApiClearCache.

(** Invocations of the four edge operations. *)
Inductive edge :=
| PushFront (events : list event)
| PushBack (events : list event)
| PopFront (count : Z)
| PopBack (count : Z).

(** The service object.  [chain] tells whether the promise held in
    [this.chain] is settled; [calls] and [edges] record, oldest first,
    what the service has asked of its collaborators and of itself. *)
Record window := Window {
  records : gmap Z lines;
  uuids : gmap Z string;
  chain : bool;
  calls : list call;
  edges : list edge;
}.

#[global] Instance lines_eq_dec : EqDecision lines.
Proof. solve_decision. Defined.
#[global] Instance event_eq_dec : EqDecision event.
Proof. solve_decision. Defined.
#[global] Instance call_eq_dec : EqDecision call.
Proof. solve_decision. Defined.
#[global] Instance edge_eq_dec : EqDecision edge.
Proof. solve_decision. Defined.
#[global] Instance window_eq_dec : EqDecision window.
Proof. solve_decision. Defined.

(** The service as [init] leaves it: both maps empty,
    [this.chain = $q.resolve()], and [api.clearCache()] called. *)
Definition init : window :=
  {| records := ∅; uuids := ∅; chain := true;
     calls := [ApiClearCache]; edges := [] |}.

Definition set_chain (b : bool) (w : window) : window :=
  {| records := records w; uuids := uuids w; chain := b;
     calls := calls w; edges := edges w |}.

Definition log_call (c : call) (w : window) : window :=
  {| records := records w; uuids := uuids w; chain := chain w;
     calls := calls w ++ [c]; edges := edges w |}.

Definition log_edge (e : edge) (w : window) : window :=
  {| records := records w; uuids := uuids w; chain := chain w;
     calls := calls w; edges := edges w ++ [e] |}.

(** [Object.keys(this.records)], read back as numbers. *)
Definition Object_keys {A} (m : gmap Z A) : list Z := elements (dom m).

(** Lines 343-353 and 362-363. *)
Definition getTailCounter (w : window) : Z :=
  let tail := Math_max_spread (Object_keys (records w)) in
  match tail with Fin t => t | _ => 0 end.

Definition getHeadCounter (w : window) : Z :=
  let head := Math_min_spread (Object_keys (records w)) in
  match head with Fin h => h | _ => 0 end.

Definition getRange (w : window) : range :=
  (getHeadCounter w, getTailCounter w).

Definition getRecordCount (w : window) : Z :=
  Z.of_nat (length (Object_keys (records w))).

(** The source: what [api.getMaxCounter()], [api.getRange(range)],
    [api.getFirst()] and [api.getLast()] answer. *)
Record Source := {
  api_getMaxCounter : num;
  api_getRange : range → list event;
  api_getFirst : list event;
  api_getLast : list event;
}.

(** ** Promises

    A promise is run from a window and either settles, with the window it
    leaves and its value, or stays pending for ever.  The collaborators'
    promises always settle here: rejections are outside this development. *)

Inductive outcome (A : Type) :=
| Settled (w : window) (a : A)
| Pending (w : window).
Arguments Settled {A} w a.
Arguments Pending {A} w.

#[global] Instance outcome_eq_dec `{EqDecision A} : EqDecision (outcome A).
Proof. solve_decision. Defined.

Definition promise (A : Type) : Type := window → outcome A.

Definition q_resolve {A} (a : A) : promise A := λ w, Settled w a.

Definition q_then {A B} (p : promise A) (f : A → promise B) : promise B :=
  λ w, match p w with
       | Settled w' a => f a w'
       | Pending w' => Pending w'
       end.

(** stdpp's monad notations: [x ← p; k] is [p.then(x => k)]. *)
#[global] Instance promise_ret : MRet promise := @q_resolve.
#[global] Instance promise_bind : MBind promise := λ A B f p, q_then p f.

Definition after {A} (o : outcome A) : window :=
  match o with Settled w _ | Pending w => w end.

(** [this.chain = this.chain.then(() => body)].  A caller registers all
    its callbacks, and assigns [this.chain] for the last time, before any
    of them runs: a [then]-callback always runs in a later turn.  So while
    [body] runs, [this.chain] is a promise that settles only after [body]
    has, and it is unsettled; when [body] never settles, neither does the
    chain, and a callback registered on an unsettled chain is never
    called.  [Tasks] below derives this from the promises themselves. *)
Definition chain_then {A} (body : promise A) : promise A :=
  λ w, if chain w
       then match body (set_chain false w) with
            | Settled w' a => Settled (set_chain true w') a
            | Pending w' => Pending w'
            end
       else Pending w.

(** Waiting on [this.chain] as it is. *)
Definition chain_wait : promise unit :=
  λ w, if chain w then Settled w tt else Pending w.

Definition call_storage (c : call) : promise unit :=
  λ w, Settled (log_call c w) tt.

Section Service.

(** [OUTPUT_EVENT_LIMIT] and [OUTPUT_PAGE_SIZE] are imported from
    [./constants]; the hook and the source are handed to [init]. *)
Variables OUTPUT_EVENT_LIMIT OUTPUT_PAGE_SIZE : Z.
Variable getScrollHeight : list call → Z.
Variable api : Source.

(** Lines 355-360. *)
Definition getMaxCounter (w : window) : Z :=
  let counter := api_getMaxCounter api in
  let tail := getTailCounter w in
  match counter with
  | Fin c => Z.max tail c
  | _ => tail
  end.

Definition getCapacity (w : window) : Z :=
  OUTPUT_EVENT_LIMIT - getRecordCount w.

(** ** Edge operations (lines 110-197) *)

(** The body of the two [forEach] loops. *)
Definition store (w : window) (e : event) : window :=
  {| records := <[counter e := Lines (start_line e) (end_line e)]> (records w);
     uuids := <[counter e := uuid e]> (uuids w);
     chain := chain w; calls := calls w; edges := edges w |}.

Definition pushFront (events : list event) : promise unit :=
  λ w0,
    let w := log_edge (PushFront events) w0 in
    let tail := getTailCounter w in
    let newEvents := filter (λ e, tail < counter e) events in
    (call_storage (StorageAppend newEvents);;
     (λ w', Settled (foldl store w' newEvents) tt) : promise unit) w.

Definition pushBack (events : list event) : promise unit :=
  λ w0,
    let w := log_edge (PushBack events) w0 in
    let '(head, tail) := getRange w in
    let newEvents :=
      filter (λ e, counter e < head ∨ tail < counter e) events in
    (call_storage (StoragePrepend newEvents);;
     (λ w', Settled (foldl store w' newEvents) tt) : promise unit) w.

(** The counters a [for] loop visits: [i = max; i >= min; --i] and
    [i = min; i <= max; ++i]. *)
Definition downto (max min : Z) : list Z := reverse (seqZ min (max - min + 1)).
Definition upto (min max : Z) : list Z := seqZ min (max - min + 1).

(** The body of the first loop of a pop: the lines of a mapped record. *)
Definition count_lines (w : window) (n : Z) (i : Z) : Z :=
  match records w !! i with
  | Some r => n + (rec_end_line r - rec_start_line r)
  | None => n
  end.

(** The body of the second loop of a pop. *)
Definition drop (w : window) (i : Z) : window :=
  {| records := delete i (records w);
     uuids := delete i (uuids w);
     chain := chain w;
     calls := calls w ++ [StorageDeleteRecord (uuids w !! i)];
     edges := edges w |}.

Definition popFront (count : Z) : promise unit :=
  λ w0,
    let w := log_edge (PopFront count) w0 in
    if count <=? 0 then q_resolve tt w
    else
      let max := getTailCounter w in
      let min := max - count in
      let n := foldl (count_lines w) 0 (downto max min) in
      (call_storage (StoragePop n);;
       (λ w', Settled (foldl drop w' (downto max min)) tt) : promise unit) w.

Definition popBack (count : Z) : promise unit :=
  λ w0,
    let w := log_edge (PopBack count) w0 in
    if count <=? 0 then q_resolve tt w
    else
      let min := getHeadCounter w in
      let max := min + count in
      let n := foldl (count_lines w) 0 (upto min max) in
      (call_storage (StorageShift n);;
       (λ w', Settled (foldl drop w' (upto min max)) tt) : promise unit) w.

(** ** Reconciler and paging (lines 199-341) *)

(** Lines 322-331.  [clear] extends the chain only when there is
    something to evict, and hands back [this.chain] either way.  Called
    at rest, as [getFirst] and [getLast] do, it settles once the eviction
    has run.  Called from a callback of the chain, as [move] does for a
    target disjoint from the window, it hands that callback a promise that
    waits for the callback's own chain: neither ever settles, and the
    eviction never runs. *)
Definition clear : promise unit :=
  λ w,
    let count := getRecordCount w in
    if 0 <? count then chain_then (popBack count) w
    else chain_wait w.

Definition call_api_getRange (r : range) : promise (list event) :=
  λ w, Settled (log_call (ApiGetRange r) w) (api_getRange api r).

Definition call_api_getFirst : promise (list event) :=
  λ w, Settled (log_call ApiGetFirst w) (api_getFirst api).

Definition call_api_getLast : promise (list event) :=
  λ w, Settled (log_call ApiGetLast w) (api_getLast api).

Definition measure : promise Z :=
  λ w, Settled w (getScrollHeight (calls w)).

(** The callbacks [move] registers on the chain once the target is known
    to be a finite, non-empty range, in the order it registers them. *)
Definition reconcile (head tail newHead newTail : Z) : promise Z :=
  let overlap := getOverlapArray (head, tail) (newHead, newTail) in
  match overlap with
  | None =>
      clear;;
      events ← call_api_getRange (newHead, newTail);
      pushFront events
  | Some _ => q_resolve tt
  end;;
  match overlap with
  | Some (o0, _) => if o0 <? 0 then popBack (Z.abs o0) else q_resolve tt
  | None => q_resolve tt
  end;;
  match overlap with
  | Some (_, o1) => if o1 <? 0 then popFront (Z.abs o1) else q_resolve tt
  | None => q_resolve tt
  end;;
  popHeight ← measure;
  match overlap with
  | Some (o0, _) =>
      if 0 <? o0 then
        events ← call_api_getRange (head - o0, head);
        pushBack events
      else q_resolve tt
  | None => q_resolve tt
  end;;
  match overlap with
  | Some (_, o1) =>
      if 0 <? o1 then
        events ← call_api_getRange (tail, tail + o1);
        pushFront events
      else q_resolve tt
  | None => q_resolve tt
  end;;
  q_resolve popHeight.

(** The target of [move] once the bounds [[1, getMaxCounter()]] are
    applied to it. *)
Definition clamp (target : num * num) (w : window) : num * num :=
  getBoundedRange target (Fin 1, Fin (getMaxCounter w)).

(** Lines 199-268.  Everything before the callbacks is read when [move]
    is called: the bounds, the first measurement and the current range. *)
Definition move (target : num * num) : promise Z :=
  λ w,
    let bounds := (Fin 1, Fin (getMaxCounter w)) in
    let '(newHead, newTail) := getBoundedRange target bounds in
    let popHeight := getScrollHeight (calls w) in
    if num_gt newHead newTail then chain_then (q_resolve popHeight) w
    else
      match newHead, newTail with
      | Fin newHead, Fin newTail =>
          let '(head, tail) := getRange w in
          chain_then (reconcile head tail newHead newTail) w
      | _, _ => chain_then (q_resolve popHeight) w
      end.

Definition move_to (r : range) : promise Z := move (Fin r.1, Fin r.2).

(** The range each paging operation hands to [move]. *)
Definition getNext_target (displacement : Z) (w : window) : range :=
  let '(head, tail) := getRange w in
  let tailRoom := getMaxCounter w - tail in
  let tailDisplacement := Z.min tailRoom displacement in
  let newTail := tail + tailDisplacement in
  let headDisplacement :=
    if OUTPUT_EVENT_LIMIT <? newTail - head
    then (newTail - OUTPUT_EVENT_LIMIT) - head
    else 0 in
  (head + headDisplacement, tail + tailDisplacement).

Definition getPrevious_target (displacement : Z) (w : window) : range :=
  let '(head, tail) := getRange w in
  let headRoom := head - 1 in
  let headDisplacement := Z.min headRoom displacement in
  let newHead := head - headDisplacement in
  let tailDisplacement :=
    if OUTPUT_EVENT_LIMIT <? tail - newHead
    then tail - (newHead + OUTPUT_EVENT_LIMIT)
    else 0 in
  (newHead, tail - tailDisplacement).

Definition moveHead_target (displacement : Z) (w : window) : range :=
  let '(head, tail) := getRange w in
  let headRoom := head - 1 in
  let headDisplacement := Z.min headRoom displacement in
  (head + headDisplacement, tail).

Definition moveTail_target (displacement : Z) (w : window) : range :=
  let '(head, tail) := getRange w in
  let tailRoom := getMaxCounter w - tail in
  let tailDisplacement := Z.max tailRoom displacement in
  (head, tail + tailDisplacement).

Definition getNext (displacement : Z) : promise Z :=
  λ w, move_to (getNext_target displacement w) w.

Definition getPrevious (displacement : Z) : promise Z :=
  λ w, move_to (getPrevious_target displacement w) w.

Definition moveHead (displacement : Z) : promise Z :=
  λ w, move_to (moveHead_target displacement w) w.

Definition moveTail (displacement : Z) : promise Z :=
  λ w, move_to (moveTail_target displacement w) w.

Definition getFirst : promise Z :=
  clear;;
  events ← call_api_getFirst;
  pushFront events;;
  moveTail OUTPUT_PAGE_SIZE.

Definition getLast : promise Z :=
  clear;;
  events ← call_api_getLast;
  pushBack events;;
  moveHead (- OUTPUT_PAGE_SIZE).

End Service.

(** The requests a caller makes of the window. *)
Inductive op :=
| Move (target : num * num)
| GetNext (displacement : Z)
| GetPrevious (displacement : Z)
| MoveHead (displacement : Z)
| MoveTail (displacement : Z)
| GetFirst
| GetLast.

Section Runs.

Variables OUTPUT_EVENT_LIMIT OUTPUT_PAGE_SIZE : Z.
Variable getScrollHeight : list call → Z.

Definition run_op (api : Source) (o : op) : promise Z :=
  match o with
  | Move target => move getScrollHeight api target
  | GetNext d => getNext OUTPUT_EVENT_LIMIT getScrollHeight api d
  | GetPrevious d => getPrevious OUTPUT_EVENT_LIMIT getScrollHeight api d
  | MoveHead d => moveHead getScrollHeight api d
  | MoveTail d => moveTail getScrollHeight api d
  | GetFirst => getFirst OUTPUT_PAGE_SIZE getScrollHeight api
  | GetLast => getLast OUTPUT_PAGE_SIZE getScrollHeight api
  end.

(** A session: each request is made once the previous one has come to
    rest, against the source as it is at that moment. *)
Definition run_ops (l : list (Source * op)) (w : window) : window :=
  foldl (λ w '(api, o), after (run_op api o w)) w l.

End Runs.

Definition run_edge (e : edge) : promise unit :=
  match e with
  | PushFront events => pushFront events
  | PushBack events => pushBack events
  | PopFront count => popFront count
  | PopBack count => popBack count
  end.

Definition run_edges (l : list edge) (w : window) : window :=
  foldl (λ w e, after (run_edge e w)) w l.

(** The set of materialized counters, and the window holding exactly the
    counters from [a] to [b] (none when [b < a]). *)
Definition materialized (w : window) : gset Z := dom (records w).

Definition holds (w : window) (a b : Z) : Prop :=
  ∀ k, k ∈ materialized w ↔ a ≤ k ≤ b.


(** A source that answers a range with one record per counter of it, and
    whose first and last pages are ranges of positive counters. *)
Definition one_per_counter (counters : list Z) (r : range) : Prop :=
  counters ≡ₚ seqZ r.1 (r.2 - r.1 + 1).

Definition page (events : list event) : Prop :=
  ∃ r, 1 ≤ r.1 ∧ one_per_counter (counter <$> events) r.

Record faithful (api : Source) : Prop := {
  faithful_range : ∀ r, one_per_counter (counter <$> api_getRange api r) r;
  faithful_first : page (api_getFirst api);
  faithful_last : page (api_getLast api);
}.

(** ** The chain, task by task

    [chain_then] and [clear] above summarise what AngularJS's [$q] does
    with [this.chain].  This module spells it out: promises live in a
    store, [then] registers a reaction, a callback that returns a promise
    makes the promise of its [then] follow that one, and reactions run one
    at a time from a queue.  The callbacks are the arrow functions of the
    source.  Edge operations and source calls are run in one piece, since
    they only wait on collaborators. *)
Module Tasks.

Inductive value :=
| Undefined
| Height (z : Z)
| Events (l : list event).

Inductive callback :=
| ResolveHeight (cell : nat)   (* () => $q.resolve(popHeight) *)
| Measure (cell : nat)         (* () => { popHeight = ...; return $q.resolve(); } *)
| CallClear                    (* () => this.clear() *)
| CallGetRange (r : range)     (* () => this.api.getRange(r) *)
| CallGetFirst                 (* () => this.api.getFirst() *)
| CallGetLast                  (* () => this.api.getLast() *)
| CallPushFront                (* events => this.pushFront(events) *)
| CallPushBack                 (* events => this.pushBack(events) *)
| CallPopFront (count : Z)     (* () => this.popFront(count) *)
| CallPopBack (count : Z)      (* () => this.popBack(count) *)
| CallMoveTail (d : Z)         (* () => this.moveTail(d) *)
| CallMoveHead (d : Z).        (* () => this.moveHead(d) *)

Inductive reaction :=
| Call (cb : callback) (target : nat)
| Follow (target : nat).

Inductive state :=
| Waiting (reactions : list reaction)
| Fulfilled (v : value).

#[global] Instance value_eq_dec : EqDecision value.
Proof. solve_decision. Defined.
#[global] Instance callback_eq_dec : EqDecision callback.
Proof. solve_decision. Defined.
#[global] Instance reaction_eq_dec : EqDecision reaction.
Proof. solve_decision. Defined.
#[global] Instance state_eq_dec : EqDecision state.
Proof. solve_decision. Defined.

(** [this] is the service object ([chain] is kept in [this_chain] here,
    as a promise), [cells] the [popHeight] variable of each call to
    [move], [jobs] the reactions ready to run. *)
Record heap := Heap {
  this : window;
  promises : list state;
  this_chain : nat;
  cells : list Z;
  jobs : list (reaction * value);
}.

(** [init]: [this.chain = $q.resolve()]. *)
Definition init : heap :=
  {| this := init; promises := [Fulfilled Undefined]; this_chain := 0%nat;
     cells := []; jobs := [] |}.

Definition set_this (w : window) (h : heap) : heap :=
  {| this := w; promises := promises h; this_chain := this_chain h;
     cells := cells h; jobs := jobs h |}.

Definition set_this_chain (p : nat) (h : heap) : heap :=
  {| this := this h; promises := promises h; this_chain := p;
     cells := cells h; jobs := jobs h |}.

(** [p.then(cb)]: a new promise; the reaction is queued at once when [p]
    is fulfilled and kept by [p] otherwise. *)
Definition q_then (p : nat) (cb : callback) (h : heap) : heap * nat :=
  let q := length (promises h) in
  match promises h !! p with
  | Some (Fulfilled v) =>
      ({| this := this h; promises := promises h ++ [Waiting []];
          this_chain := this_chain h; cells := cells h;
          jobs := jobs h ++ [(Call cb q, v)] |}, q)
  | Some (Waiting rs) =>
      ({| this := this h;
          promises := <[p := Waiting (rs ++ [Call cb q])]> (promises h)
                      ++ [Waiting []];
          this_chain := this_chain h; cells := cells h; jobs := jobs h |}, q)
  | None => (h, p)
  end.

(** Fulfilling [q] queues the reactions it kept. *)
Definition fulfil (q : nat) (v : value) (h : heap) : heap :=
  match promises h !! q with
  | Some (Waiting rs) =>
      {| this := this h; promises := <[q := Fulfilled v]> (promises h);
         this_chain := this_chain h; cells := cells h;
         jobs := jobs h ++ ((λ r, (r, v)) <$> rs) |}
  | _ => h
  end.

(** [q] is resolved with the promise [p]: it takes [p]'s value when [p]
    has one and waits for it otherwise. *)
Definition follow (q p : nat) (h : heap) : heap :=
  match promises h !! p with
  | Some (Fulfilled v) => fulfil q v h
  | Some (Waiting rs) =>
      {| this := this h;
         promises := <[p := Waiting (rs ++ [Follow q])]> (promises h);
         this_chain := this_chain h; cells := cells h; jobs := jobs h |}
  | None => h
  end.

Section Service.

Variable OUTPUT_PAGE_SIZE : Z.
Variable getScrollHeight : list call → Z.
Variable api : Source.

(** [this.chain = this.chain.then(cb)]. *)
Definition chain_then (h : heap) (cb : callback) : heap :=
  let '(h', q) := q_then (this_chain h) cb h in set_this_chain q h'.

(** Lines 322-331. *)
Definition clear (h : heap) : heap * nat :=
  let count := getRecordCount (this h) in
  let h' := if 0 <? count then chain_then h (CallPopBack count) else h in
  (h', this_chain h').

(** Lines 199-268; the callbacks are listed in the order [move]
    registers them. *)
Definition move (target : num * num) (h : heap) : heap * nat :=
  let w := this h in
  let bounds := (Fin 1, Fin (getMaxCounter api w)) in
  let '(newHead, newTail) := getBoundedRange target bounds in
  let popHeight := length (cells h) in
  let h0 :=
    {| this := w; promises := promises h; this_chain := this_chain h;
       cells := cells h ++ [getScrollHeight (calls w)]; jobs := jobs h |} in
  let callbacks :=
    if num_gt newHead newTail then [ResolveHeight popHeight]
    else
      match newHead, newTail with
      | Fin newHead, Fin newTail =>
          let '(head, tail) := getRange w in
          let overlap := getOverlapArray (head, tail) (newHead, newTail) in
          match overlap with
          | None => [CallClear; CallGetRange (newHead, newTail); CallPushFront]
          | Some _ => []
          end ++
          match overlap with
          | Some (o0, _) => if o0 <? 0 then [CallPopBack (Z.abs o0)] else []
          | None => []
          end ++
          match overlap with
          | Some (_, o1) => if o1 <? 0 then [CallPopFront (Z.abs o1)] else []
          | None => []
          end ++
          [Measure popHeight] ++
          match overlap with
          | Some (o0, _) =>
              if 0 <? o0 then [CallGetRange (head - o0, head); CallPushBack]
              else []
          | None => []
          end ++
          match overlap with
          | Some (_, o1) =>
              if 0 <? o1 then [CallGetRange (tail, tail + o1); CallPushFront]
              else []
          | None => []
          end ++
          [ResolveHeight popHeight]
      | _, _ => [ResolveHeight popHeight]
      end in
  let h' := foldl chain_then h0 callbacks in
  (h', this_chain h').

Definition move_to (r : range) : heap → heap * nat := move (Fin r.1, Fin r.2).

Definition events_of (v : value) : list event :=
  match v with Events l => l | _ => [] end.

(** Running a callback on the value of the promise it was registered
    on: what it leaves, and what it returns, a value or a promise. *)
Definition exec (cb : callback) (v : value) (h : heap) : heap * (value + nat) :=
  match cb with
  | ResolveHeight cell => (h, inl (Height (default 0 (cells h !! cell))))
  | Measure cell =>
      ({| this := this h; promises := promises h; this_chain := this_chain h;
          cells := <[cell := getScrollHeight (calls (this h))]> (cells h);
          jobs := jobs h |}, inl Undefined)
  | CallClear => let '(h', p) := clear h in (h', inr p)
  | CallGetRange r =>
      (set_this (log_call (ApiGetRange r) (this h)) h,
       inl (Events (api_getRange api r)))
  | CallGetFirst =>
      (set_this (log_call ApiGetFirst (this h)) h,
       inl (Events (api_getFirst api)))
  | CallGetLast =>
      (set_this (log_call ApiGetLast (this h)) h,
       inl (Events (api_getLast api)))
  | CallPushFront =>
      (set_this (after (pushFront (events_of v) (this h))) h, inl Undefined)
  | CallPushBack =>
      (set_this (after (pushBack (events_of v) (this h))) h, inl Undefined)
  | CallPopFront count =>
      (set_this (after (popFront count (this h))) h, inl Undefined)
  | CallPopBack count =>
      (set_this (after (popBack count (this h))) h, inl Undefined)
  | CallMoveTail d =>
      let '(h', p) := move_to (moveTail_target api d (this h)) h in (h', inr p)
  | CallMoveHead d =>
      let '(h', p) := move_to (moveHead_target d (this h)) h in (h', inr p)
  end.

Definition react (r : reaction) (v : value) (h : heap) : heap :=
  match r with
  | Follow q => fulfil q v h
  | Call cb q =>
      let '(h', result) := exec cb v h in
      match result with
      | inl v' => fulfil q v' h'
      | inr p => follow q p h'
      end
  end.

(** Run queued reactions, oldest first, until none is left. *)
Fixpoint run (fuel : nat) (h : heap) : heap :=
  match fuel with
  | O => h
  | S fuel =>
      match jobs h with
      | [] => h
      | (r, v) :: rest =>
          run fuel
            (react r v
               {| this := this h; promises := promises h;
                  this_chain := this_chain h; cells := cells h;
                  jobs := rest |})
      end
  end.

(** Lines 333-341. *)
Definition getFirst (h : heap) : heap * nat :=
  let '(h, p) := clear h in
  let '(h, p) := q_then p CallGetFirst h in
  let '(h, p) := q_then p CallPushFront h in
  q_then p (CallMoveTail OUTPUT_PAGE_SIZE) h.

Definition getLast (h : heap) : heap * nat :=
  let '(h, p) := clear h in
  let '(h, p) := q_then p CallGetLast h in
  let '(h, p) := q_then p CallPushBack h in
  q_then p (CallMoveHead (- OUTPUT_PAGE_SIZE)) h.

End Service.

(** A request, run until the queue is empty: the heap it leaves and the
    state of the promise it returned. *)
Definition request (OUTPUT_EVENT_LIMIT OUTPUT_PAGE_SIZE : Z)
    (getScrollHeight : list call → Z) (api : Source) (o : op) (fuel : nat)
    (h : heap) : heap * option state :=
  let '(h', p) :=
    match o with
    | Move target => move getScrollHeight api target h
    | GetNext d =>
        move_to getScrollHeight api
          (getNext_target OUTPUT_EVENT_LIMIT api d (this h)) h
    | GetPrevious d =>
        move_to getScrollHeight api
          (getPrevious_target OUTPUT_EVENT_LIMIT d (this h)) h
    | MoveHead d =>
        move_to getScrollHeight api (moveHead_target d (this h)) h
    | MoveTail d =>
        move_to getScrollHeight api (moveTail_target api d (this h)) h
    | GetFirst => getFirst OUTPUT_PAGE_SIZE h
    | GetLast => getLast OUTPUT_PAGE_SIZE h
    end in
  let h'' := run getScrollHeight api fuel h' in
  (h'', promises h'' !! p).

(** The heap whose only promise is [this.chain], fulfilled or not. *)
Definition at_rest (w : window) : heap :=
  {| this := w;
     promises := [if chain w then Fulfilled Undefined else Waiting []];
     this_chain := 0%nat; cells := []; jobs := [] |}.

End Tasks.

(** The two readings of a request agree when they leave the same maps and
    logs, no reaction is left to run, and the promise handed to the caller
    is fulfilled with the height exactly when the request settles;
    [this.chain] is then fulfilled too, and waiting otherwise. *)
Definition fulfilled_with (v : Tasks.value) (s : option Tasks.state) : Prop :=
  s = Some (Tasks.Fulfilled v).

Definition waiting (s : option Tasks.state) : Prop :=
  match s with Some (Tasks.Waiting _) => True | _ => False end.

Definition settled (s : option Tasks.state) : Prop :=
  match s with Some (Tasks.Fulfilled _) => True | _ => False end.

Definition agree (o : outcome Z) (x : Tasks.heap * option Tasks.state) : Prop :=
  let w := after o in
  let h := x.1 in
  records (Tasks.this h) = records w ∧
  uuids (Tasks.this h) = uuids w ∧
  calls (Tasks.this h) = calls w ∧
  edges (Tasks.this h) = edges w ∧
  Tasks.jobs h = [] ∧
  match o with
  | Settled _ v =>
      fulfilled_with (Tasks.Height v) x.2 ∧
      settled (Tasks.promises h !! Tasks.this_chain h)
  | Pending _ =>
      waiting x.2 ∧ waiting (Tasks.promises h !! Tasks.this_chain h)
  end.

#[global] Instance waiting_dec s : Decision (waiting s).
Proof. destruct s as [[]|]; cbn; apply _. Defined.

#[global] Instance settled_dec s : Decision (settled s).
Proof. destruct s as [[]|]; cbn; apply _. Defined.

#[global] Instance agree_dec o x : Decision (agree o x).
Proof. unfold agree, fulfilled_with. destruct o; apply _. Defined.

(** Agreement after every request of a session. *)
Fixpoint agree_along (OUTPUT_EVENT_LIMIT OUTPUT_PAGE_SIZE : Z)
    (getScrollHeight : list call → Z) (fuel : nat)
    (l : list (Source * op)) (w : window) (h : Tasks.heap) : Prop :=
  match l with
  | [] => True
  | (api, o) :: l =>
      let out :=
        run_op OUTPUT_EVENT_LIMIT OUTPUT_PAGE_SIZE getScrollHeight api o w in
      let x :=
        Tasks.request OUTPUT_EVENT_LIMIT OUTPUT_PAGE_SIZE getScrollHeight
          api o fuel h in
      agree out x ∧
      agree_along OUTPUT_EVENT_LIMIT OUTPUT_PAGE_SIZE getScrollHeight fuel
        l (after out) x.1
  end.

#[global] Instance agree_along_dec limit size height fuel l w h :
  Decision (agree_along limit size height fuel l w h).
Proof.
  revert w h. induction l as [|[api o] l IH]; intros w h; cbn; apply _.
Defined.

(** A sample source and hook: the record of counter [k] spans two lines,
    a range is answered with the records of its counters, the first page
    is [first] and the last page [last]; the height is the number of
    calls made so far. *)
Module Sample.

Definition record_of (k : Z) : event :=
  {| counter := k; start_line := 2 * k; end_line := 2 * k + 2;
     uuid := "id" |}.

Definition records_of (r : range) : list event :=
  record_of <$> seqZ r.1 (r.2 - r.1 + 1).

Definition source (max : Z) (first last : range) : Source :=
  {| api_getMaxCounter := Fin max;
     api_getRange := records_of;
     api_getFirst := records_of first;
     api_getLast := records_of last |}.

Definition height (log : list call) : Z := Z.of_nat (length log).

(** The window holding the counters of [r], straight after [init]. *)
Definition window_of (r : range) : window :=
  after (pushFront (records_of r) init).

End Sample.

(** * Properties *)

(** ** Range arithmetic *)

Lemma checkRangeOverlap_comm (a b : range) :
  checkRangeOverlap a b = checkRangeOverlap b a.
Proof.
  unfold checkRangeOverlap; cbn.
  rewrite (Z.max_comm a.2), (Z.min_comm a.1), (Z.add_comm (a.2 - a.1)); done.
Qed.

Lemma checkRangeOverlap_spec (a b : range) :
  a.1 ≤ a.2 → b.1 ≤ b.2 →
  checkRangeOverlap a b = true ↔ b.1 ≤ a.2 ∧ a.1 ≤ b.2.
Proof.
  unfold checkRangeOverlap; cbn; intros.
  rewrite Z.leb_le. lia.
Qed.

(** C10: the overlap test is symmetric, and swapping the two ranges
    negates both entries of the overlap array, which is
    [a.1 - b.1, b.2 - a.2] whenever the ranges overlap. *)
Theorem getOverlapArray_antisymmetric (a b : range) :
  checkRangeOverlap a b = checkRangeOverlap b a ∧
  getOverlapArray a b =
    (if checkRangeOverlap a b then Some (a.1 - b.1, b.2 - a.2) else None) ∧
  getOverlapArray b a =
    (if checkRangeOverlap a b then Some (b.1 - a.1, a.2 - b.2) else None) ∧
  getOverlapArray b a = (λ d, (- d.1, - d.2)) <$> getOverlapArray a b.
Proof.
  split; [apply checkRangeOverlap_comm|].
  unfold getOverlapArray.
  rewrite (checkRangeOverlap_comm b a).
  destruct (checkRangeOverlap a b); cbn; repeat split.
  do 2 f_equal; lia.
Qed.

(** ** Window state *)

Lemma Math_max_spread_spec (l : list Z) :
  match Math_max_spread l with
  | Fin m => m ∈ l ∧ ∀ k, k ∈ l → k ≤ m
  | NegInf => l = []
  | _ => False
  end.
Proof.
  induction l as [|x l IH]; [done|].
  change (Math_max_spread (x :: l)) with (Math_max (Fin x) (Math_max_spread l)).
  revert IH; destruct (Math_max_spread l) as [m| | |]; intros IH;
    unfold Math_max; try done.
  - destruct IH as [Hm Hle]. split.
    + destruct (Z.max_dec x m) as [-> | ->]; set_solver.
    + intros k [->|Hk]%elem_of_cons; [lia|]. specialize (Hle k Hk). lia.
  - subst l. split; [set_solver|]. intros k Hk.
    apply list_elem_of_singleton in Hk. lia.
Qed.

Lemma Math_min_spread_spec (l : list Z) :
  match Math_min_spread l with
  | Fin m => m ∈ l ∧ ∀ k, k ∈ l → m ≤ k
  | PosInf => l = []
  | _ => False
  end.
Proof.
  induction l as [|x l IH]; [done|].
  change (Math_min_spread (x :: l)) with (Math_min (Fin x) (Math_min_spread l)).
  revert IH; destruct (Math_min_spread l) as [m| | |]; intros IH;
    unfold Math_min; try done.
  - destruct IH as [Hm Hle]. split.
    + destruct (Z.min_dec x m) as [-> | ->]; set_solver.
    + intros k [->|Hk]%elem_of_cons; [lia|]. specialize (Hle k Hk). lia.
  - subst l. split; [set_solver|]. intros k Hk.
    apply list_elem_of_singleton in Hk. lia.
Qed.

Lemma getTailCounter_spec (w : window) :
  (materialized w = ∅ ∧ getTailCounter w = 0) ∨
  (getTailCounter w ∈ materialized w ∧
   ∀ k, k ∈ materialized w → k ≤ getTailCounter w).
Proof.
  unfold getTailCounter, Object_keys, materialized.
  pose proof (Math_max_spread_spec (elements (dom (records w)))) as H.
  destruct (Math_max_spread (elements (dom (records w)))) as [m| | |];
    try done.
  - right. destruct H as [Hm Hle]. split; [set_solver|].
    intros k Hk. apply Hle. set_solver.
  - left. split; [|done]. by apply elements_empty_inv, leibniz_equiv in H.
Qed.

Lemma getHeadCounter_spec (w : window) :
  (materialized w = ∅ ∧ getHeadCounter w = 0) ∨
  (getHeadCounter w ∈ materialized w ∧
   ∀ k, k ∈ materialized w → getHeadCounter w ≤ k).
Proof.
  unfold getHeadCounter, Object_keys, materialized.
  pose proof (Math_min_spread_spec (elements (dom (records w)))) as H.
  destruct (Math_min_spread (elements (dom (records w)))) as [m| | |];
    try done.
  - right. destruct H as [Hm Hle]. split; [set_solver|].
    intros k Hk. apply Hle. set_solver.
  - left. split; [|done]. by apply elements_empty_inv, leibniz_equiv in H.
Qed.

Lemma holds_nonempty (w : window) (a b : Z) :
  holds w a b → a ≤ b → materialized w ≠ ∅.
Proof.
  intros H Hab He. assert (a ∈ materialized w) as Ha by (apply H; lia).
  rewrite He in Ha. by apply not_elem_of_empty in Ha.
Qed.

Lemma holds_range (w : window) (a b : Z) :
  holds w a b → a ≤ b → getRange w = (a, b).
Proof.
  intros H Hab. unfold getRange.
  pose proof (holds_nonempty _ _ _ H Hab) as Hne.
  destruct (getHeadCounter_spec w) as [[He _]|[Hh Hmin]]; [done|].
  destruct (getTailCounter_spec w) as [[He _]|[Ht Hmax]]; [done|].
  apply H in Hh, Ht.
  assert (a ∈ materialized w) as Ha by (apply H; lia).
  assert (b ∈ materialized w) as Hb by (apply H; lia).
  apply Hmin in Ha. apply Hmax in Hb. f_equal; lia.
Qed.

Lemma holds_none (w : window) (a b : Z) :
  holds w a b → b < a → materialized w = ∅ ∧ getRange w = (0, 0).
Proof.
  intros H Hab.
  assert (materialized w = ∅) as He.
  { apply set_eq. intros k. split; [|by intros ?%not_elem_of_empty].
    intros Hk%H. lia. }
  split; [done|]. unfold getRange.
  destruct (getHeadCounter_spec w) as [[_ ->]|[Hh _]];
    [|rewrite He in Hh; by apply not_elem_of_empty in Hh].
  destruct (getTailCounter_spec w) as [[_ ->]|[Ht _]];
    [done|rewrite He in Ht; by apply not_elem_of_empty in Ht].
Qed.

Lemma holds_count (w : window) (a b : Z) :
  holds w a b → getRecordCount w = Z.max 0 (b - a + 1).
Proof.
  intros H. unfold getRecordCount, Object_keys.
  assert (dom (records w) = list_to_set (seqZ a (b - a + 1))) as ->.
  { apply set_eq. intros k. rewrite elem_of_list_to_set, elem_of_seqZ.
    rewrite (H k). lia. }
  change (length (elements ?X)) with (size X).
  rewrite size_list_to_set by apply NoDup_seqZ.
  rewrite length_seqZ. lia.
Qed.


(** ** Edge operations *)

Lemma foldl_store_fields (l : list event) (w : window) :
  chain (foldl store w l) = chain w ∧
  calls (foldl store w l) = calls w ∧
  edges (foldl store w l) = edges w.
Proof.
  revert w. induction l as [|e l IH]; intros w; [done|].
  cbn [foldl]. by destruct (IH (store w e)) as (-> & -> & ->).
Qed.

Lemma foldl_store_dom (l : list event) (w : window) :
  dom (records (foldl store w l)) = dom (records w) ∪ list_to_set (counter <$> l) ∧
  dom (uuids (foldl store w l)) = dom (uuids w) ∪ list_to_set (counter <$> l).
Proof.
  revert w. induction l as [|e l IH]; intros w; cbn [foldl].
  - rewrite fmap_nil, list_to_set_nil. split; set_solver.
  - destruct (IH (store w e)) as [-> ->]. cbn [store records uuids].
    rewrite !dom_insert_L, fmap_cons, list_to_set_cons. split; set_solver.
Qed.

Lemma foldl_drop_fields (l : list Z) (w : window) :
  chain (foldl drop w l) = chain w ∧ edges (foldl drop w l) = edges w.
Proof.
  revert w. induction l as [|e l IH]; intros w; [done|].
  cbn [foldl]. by destruct (IH (drop w e)) as (-> & ->).
Qed.

Lemma foldl_drop_lookup (l : list Z) (w : window) (k : Z) :
  records (foldl drop w l) !! k =
    (if decide (k ∈ l) then None else records w !! k) ∧
  uuids (foldl drop w l) !! k =
    (if decide (k ∈ l) then None else uuids w !! k).
Proof.
  revert w. induction l as [|i l IH]; intros w; cbn [foldl].
  - by rewrite !decide_False by set_solver.
  - destruct (IH (drop w i)) as [-> ->]. cbn [drop records uuids].
    rewrite !lookup_delete.
    repeat case_decide; try done; set_solver.
Qed.

Lemma foldl_drop_dom (l : list Z) (w : window) :
  dom (records (foldl drop w l)) = dom (records w) ∖ list_to_set l ∧
  dom (uuids (foldl drop w l)) = dom (uuids w) ∖ list_to_set l.
Proof.
  split; apply set_eq; intros k;
    rewrite elem_of_difference, !elem_of_dom, elem_of_list_to_set;
    [rewrite (proj1 (foldl_drop_lookup l w k))
    |rewrite (proj2 (foldl_drop_lookup l w k))];
    case_decide; rewrite ?is_Some_alt; naive_solver.
Qed.

Lemma elem_of_downto (max min k : Z) : k ∈ downto max min ↔ min ≤ k ≤ max.
Proof. unfold downto. rewrite elem_of_reverse, elem_of_seqZ. lia. Qed.

Lemma elem_of_upto (min max k : Z) : k ∈ upto min max ↔ min ≤ k ≤ max.
Proof. unfold upto. rewrite elem_of_seqZ. lia. Qed.

(** What each edge operation leaves behind.  All four settle. *)

Lemma pushFront_run (events : list event) (w : window) :
  let newEvents := filter (λ e, getTailCounter w < counter e) events in
  pushFront events w =
    Settled (foldl store
               (log_call (StorageAppend newEvents)
                  (log_edge (PushFront events) w)) newEvents) tt.
Proof. done. Qed.

Lemma pushBack_run (events : list event) (w : window) :
  let newEvents :=
    filter (λ e, counter e < getHeadCounter w ∨ getTailCounter w < counter e)
      events in
  pushBack events w =
    Settled (foldl store
               (log_call (StoragePrepend newEvents)
                  (log_edge (PushBack events) w)) newEvents) tt.
Proof. done. Qed.

Lemma popFront_run (count : Z) (w : window) :
  0 < count →
  let max := getTailCounter w in
  let min := max - count in
  popFront count w =
    Settled (foldl drop
               (log_call (StoragePop (foldl (count_lines w) 0 (downto max min)))
                  (log_edge (PopFront count) w)) (downto max min)) tt.
Proof.
  intros Hc. unfold popFront.
  by rewrite (proj2 (Z.leb_gt count 0)) by lia.
Qed.

Lemma popBack_run (count : Z) (w : window) :
  0 < count →
  let min := getHeadCounter w in
  let max := min + count in
  popBack count w =
    Settled (foldl drop
               (log_call (StorageShift (foldl (count_lines w) 0 (upto min max)))
                  (log_edge (PopBack count) w)) (upto min max)) tt.
Proof.
  intros Hc. unfold popBack.
  by rewrite (proj2 (Z.leb_gt count 0)) by lia.
Qed.

Lemma popFront_skip (count : Z) (w : window) :
  count ≤ 0 → popFront count w = Settled (log_edge (PopFront count) w) tt.
Proof. intros Hc. unfold popFront. by rewrite (proj2 (Z.leb_le count 0)). Qed.

Lemma popBack_skip (count : Z) (w : window) :
  count ≤ 0 → popBack count w = Settled (log_edge (PopBack count) w) tt.
Proof. intros Hc. unfold popBack. by rewrite (proj2 (Z.leb_le count 0)). Qed.

Lemma run_edge_settles (e : edge) (w : window) :
  ∃ w', run_edge e w = Settled w' tt ∧ chain w' = chain w.
Proof.
  destruct e as [events|events|count|count]; cbn [run_edge].
  - eexists. split; [apply pushFront_run|].
    by rewrite (proj1 (foldl_store_fields _ _)).
  - eexists. split; [apply pushBack_run|].
    by rewrite (proj1 (foldl_store_fields _ _)).
  - destruct (decide (0 < count)).
    + eexists. split; [by apply popFront_run|].
      by rewrite (proj1 (foldl_drop_fields _ _)).
    + eexists. split; [apply popFront_skip; lia|done].
  - destruct (decide (0 < count)).
    + eexists. split; [by apply popBack_run|].
      by rewrite (proj1 (foldl_drop_fields _ _)).
    + eexists. split; [apply popBack_skip; lia|done].
Qed.

(** The counters an edge operation leaves materialized. *)

Lemma pushFront_materialized (events : list event) (w : window) (k : Z) :
  k ∈ materialized (after (pushFront events w)) ↔
  k ∈ materialized w ∨
  (k ∈ counter <$> events ∧ getTailCounter w < k).
Proof.
  rewrite pushFront_run. cbn [after]. unfold materialized.
  rewrite (proj1 (foldl_store_dom _ _)). cbn [log_call log_edge records].
  rewrite elem_of_union, elem_of_list_to_set, !list_elem_of_fmap.
  setoid_rewrite list_elem_of_filter. naive_solver.
Qed.

Lemma pushBack_materialized (events : list event) (w : window) (k : Z) :
  k ∈ materialized (after (pushBack events w)) ↔
  k ∈ materialized w ∨
  (k ∈ counter <$> events ∧ (k < getHeadCounter w ∨ getTailCounter w < k)).
Proof.
  rewrite pushBack_run. cbn [after]. unfold materialized.
  rewrite (proj1 (foldl_store_dom _ _)). cbn [log_call log_edge records].
  rewrite elem_of_union, elem_of_list_to_set, !list_elem_of_fmap.
  setoid_rewrite list_elem_of_filter. naive_solver.
Qed.

Lemma popFront_materialized (count : Z) (w : window) (k : Z) :
  0 < count →
  k ∈ materialized (after (popFront count w)) ↔
  k ∈ materialized w ∧
  ¬ (getTailCounter w - count ≤ k ≤ getTailCounter w).
Proof.
  intros Hc. rewrite popFront_run by done. cbn [after]. unfold materialized.
  rewrite (proj1 (foldl_drop_dom _ _)). cbn [log_call log_edge records].
  by rewrite elem_of_difference, elem_of_list_to_set, elem_of_downto.
Qed.

Lemma popBack_materialized (count : Z) (w : window) (k : Z) :
  0 < count →
  k ∈ materialized (after (popBack count w)) ↔
  k ∈ materialized w ∧
  ¬ (getHeadCounter w ≤ k ≤ getHeadCounter w + count).
Proof.
  intros Hc. rewrite popBack_run by done. cbn [after]. unfold materialized.
  rewrite (proj1 (foldl_drop_dom _ _)). cbn [log_call log_edge records].
  by rewrite elem_of_difference, elem_of_list_to_set, elem_of_upto.
Qed.

Lemma edge_settled (e : edge) (w : window) :
  run_edge e w = Settled (after (run_edge e w)) tt.
Proof. by destruct (run_edge_settles e w) as (w' & -> & _). Qed.

Lemma edge_chain (e : edge) (w : window) :
  chain (after (run_edge e w)) = chain w.
Proof. by destruct (run_edge_settles e w) as (w' & -> & ?). Qed.

Lemma pushFront_settled (events : list event) (w : window) :
  pushFront events w = Settled (after (pushFront events w)) tt ∧
  chain (after (pushFront events w)) = chain w.
Proof.
  split; [apply (edge_settled (PushFront _))|apply (edge_chain (PushFront _))].
Qed.

Lemma pushBack_settled (events : list event) (w : window) :
  pushBack events w = Settled (after (pushBack events w)) tt ∧
  chain (after (pushBack events w)) = chain w.
Proof.
  split; [apply (edge_settled (PushBack _))|apply (edge_chain (PushBack _))].
Qed.

Lemma popFront_settled (count : Z) (w : window) :
  popFront count w = Settled (after (popFront count w)) tt ∧
  chain (after (popFront count w)) = chain w.
Proof.
  split; [apply (edge_settled (PopFront _))|apply (edge_chain (PopFront _))].
Qed.

Lemma popBack_settled (count : Z) (w : window) :
  popBack count w = Settled (after (popBack count w)) tt ∧
  chain (after (popBack count w)) = chain w.
Proof.
  split; [apply (edge_settled (PopBack _))|apply (edge_chain (PopBack _))].
Qed.

Lemma one_per_counter_elem (counters : list Z) (r : range) (k : Z) :
  one_per_counter counters r → k ∈ counters ↔ r.1 ≤ k ≤ r.2.
Proof. unfold one_per_counter. intros ->. rewrite elem_of_seqZ. lia. Qed.

(** Edge operations on a window that holds a range of counters. *)

Lemma popBack_holds (n h t : Z) (w : window) :
  holds w h t → h ≤ t → 0 < n →
  holds (after (popBack n w)) (h + n + 1) t.
Proof.
  intros H Hht Hn k. rewrite popBack_materialized by done.
  pose proof (holds_range _ _ _ H Hht) as [= -> _]. rewrite (H k). lia.
Qed.

Lemma popFront_holds (n h t : Z) (w : window) :
  holds w h t → h ≤ t → 0 < n →
  holds (after (popFront n w)) h (t - n - 1).
Proof.
  intros H Hht Hn k. rewrite popFront_materialized by done.
  pose proof (holds_range _ _ _ H Hht) as [= _ ->]. rewrite (H k). lia.
Qed.

Lemma pushBack_holds (events : list event) (a b h t : Z) (w : window) :
  holds w h t → h ≤ t →
  one_per_counter (counter <$> events) (a, b) → a ≤ h → h - 1 ≤ b ≤ t →
  holds (after (pushBack events w)) a t.
Proof.
  intros H Hht He Ha Hb k. rewrite pushBack_materialized.
  pose proof (holds_range _ _ _ H Hht) as [= -> ->].
  rewrite (H k), (one_per_counter_elem _ _ k He). cbn. lia.
Qed.

Lemma pushBack_holds_none (events : list event) (a b h t : Z) (w : window) :
  holds w h t → t < h →
  one_per_counter (counter <$> events) (a, b) → 1 ≤ a →
  holds (after (pushBack events w)) a b.
Proof.
  intros H Hht He Ha k. rewrite pushBack_materialized.
  destruct (holds_none _ _ _ H Hht) as [_ [= -> ->]].
  rewrite (H k), (one_per_counter_elem _ _ k He). cbn. lia.
Qed.

Lemma pushFront_holds (events : list event) (a b h t : Z) (w : window) :
  holds w h t → h ≤ t →
  one_per_counter (counter <$> events) (a, b) → a ≤ t + 1 → t ≤ b →
  holds (after (pushFront events w)) h b.
Proof.
  intros H Hht He Ha Hb k. rewrite pushFront_materialized.
  pose proof (holds_range _ _ _ H Hht) as [= _ ->].
  rewrite (H k), (one_per_counter_elem _ _ k He). cbn. lia.
Qed.

Lemma pushFront_holds_none (events : list event) (a b h t : Z) (w : window) :
  holds w h t → t < h →
  one_per_counter (counter <$> events) (a, b) → 1 ≤ a →
  holds (after (pushFront events w)) a b.
Proof.
  intros H Hht He Ha k. rewrite pushFront_materialized.
  destruct (holds_none _ _ _ H Hht) as [_ [= _ ->]].
  rewrite (H k), (one_per_counter_elem _ _ k He). cbn. lia.
Qed.

(** ** Promises *)

Lemma then_settled {A B} (p : promise A) (f : A → promise B) w w' a :
  p w = Settled w' a → (p ≫= f) w = f a w'.
Proof. unfold mbind, promise_bind, q_then. by intros ->. Qed.

Lemma then_pending {A B} (p : promise A) (f : A → promise B) w w' :
  p w = Pending w' → (p ≫= f) w = Pending w'.
Proof. unfold mbind, promise_bind, q_then. by intros ->. Qed.

Lemma set_chain_id (w : window) : set_chain (chain w) w = w.
Proof. by destruct w. Qed.

Lemma set_chain_set_chain (b c : bool) (w : window) :
  set_chain b (set_chain c w) = set_chain b w.
Proof. done. Qed.

Lemma chain_then_settled {A} (body : promise A) w w' a :
  chain w = true → body (set_chain false w) = Settled w' a →
  chain_then body w = Settled (set_chain true w') a.
Proof. unfold chain_then. by intros -> ->. Qed.

Lemma chain_then_resolve {A} (a : A) (w : window) :
  chain w = true → chain_then (q_resolve a) w = Settled w a.
Proof.
  intros Hc. unfold chain_then, q_resolve. rewrite Hc.
  by rewrite set_chain_set_chain, <- Hc, set_chain_id.
Qed.

Lemma chain_then_unsettled {A} (body : promise A) (w : window) :
  chain w = false → chain_then body w = Pending w.
Proof. unfold chain_then. by intros ->. Qed.


(** ** Reconciler *)

Section Reconciler.

Variable getScrollHeight : list call → Z.
Variable api : Source.
Hypothesis api_faithful : faithful api.

(** Inside a chain callback [clear] waits on the chain it runs in. *)
Lemma clear_unsettled (w : window) : chain w = false → clear w = Pending w.
Proof.
  intros Hc. unfold clear.
  destruct (0 <? getRecordCount w); [by apply chain_then_unsettled|].
  unfold chain_wait. by rewrite Hc.
Qed.

Lemma reconcile_disjoint (h t a b : Z) (w : window) :
  checkRangeOverlap (h, t) (a, b) = false → chain w = false →
  reconcile getScrollHeight api h t a b w = Pending w.
Proof.
  intros Hov Hc. unfold reconcile, getOverlapArray. rewrite Hov. cbn [negb].
  apply then_pending, then_pending. by apply clear_unsettled.
Qed.

Lemma trim_low_holds (o0 h t : Z) (w : window) :
  holds w h t → h ≤ t →
  ∃ w1, (if o0 <? 0 then popBack (Z.abs o0) else q_resolve tt) w
        = Settled w1 tt ∧
        chain w1 = chain w ∧
        holds w1 (if o0 <? 0 then h - o0 + 1 else h) t.
Proof.
  intros H Hht. destruct (Z.ltb_spec o0 0); [|by exists w].
  exists (after (popBack (Z.abs o0) w)). split_and!.
  - apply popBack_settled.
  - apply popBack_settled.
  - replace (h - o0 + 1) with (h + Z.abs o0 + 1) by lia.
    apply popBack_holds; [done|done|lia].
Qed.

Lemma trim_high_holds (o1 h t : Z) (w : window) :
  holds w h t → (o1 < 0 → h ≤ t) →
  ∃ w2, (if o1 <? 0 then popFront (Z.abs o1) else q_resolve tt) w
        = Settled w2 tt ∧
        chain w2 = chain w ∧
        holds w2 h (if o1 <? 0 then t + o1 - 1 else t).
Proof.
  intros H Hht. destruct (Z.ltb_spec o1 0); [|by exists w].
  exists (after (popFront (Z.abs o1) w)). split_and!.
  - apply popFront_settled.
  - apply popFront_settled.
  - replace (t + o1 - 1) with (t - Z.abs o1 - 1) by lia.
    apply popFront_holds; [done|lia|lia].
Qed.

Lemma grow_low_holds (o0 head h t : Z) (w : window) :
  holds w h t → (0 < o0 → 1 ≤ head - o0 ∧ h = head ∧ head - 1 ≤ t) →
  ∃ w3,
    (if 0 <? o0 then
       events ← call_api_getRange api (head - o0, head);
       pushBack events
     else q_resolve tt) w = Settled w3 tt ∧
    chain w3 = chain w ∧
    holds w3 (if 0 <? o0 then head - o0 else h)
             (if (0 <? o0) && (t <? h) then head else t).
Proof.
  intros H Ho. destruct (Z.ltb_spec 0 o0); [|by exists w].
  destruct Ho as (Ha & -> & Ht); [done|].
  set (w' := log_call (ApiGetRange (head - o0, head)) w).
  set (events := api_getRange api (head - o0, head)).
  exists (after (pushBack events w')). split_and!.
  - erewrite then_settled by done. apply pushBack_settled.
  - by rewrite (proj2 (pushBack_settled _ _)).
  - pose proof (faithful_range _ api_faithful (head - o0, head)) as He.
    cbn [andb]. destruct (Z.ltb_spec t head).
    + by apply (pushBack_holds_none _ _ _ head t).
    + apply (pushBack_holds _ _ head head t); [done|lia|done|lia|lia].
Qed.

Lemma grow_high_holds (o1 tail h t : Z) (w : window) :
  holds w h t →
  (0 < o1 → 1 ≤ tail ∧ t = tail ∧ (h ≤ t ∨ h = t + 1)) →
  ∃ w4,
    (if 0 <? o1 then
       events ← call_api_getRange api (tail, tail + o1);
       pushFront events
     else q_resolve tt) w = Settled w4 tt ∧
    chain w4 = chain w ∧
    holds w4 (if (0 <? o1) && (t <? h) then tail else h)
             (if 0 <? o1 then tail + o1 else t).
Proof.
  intros H Ho. destruct (Z.ltb_spec 0 o1); [|by exists w].
  destruct Ho as (Ha & -> & Ht); [done|].
  set (w' := log_call (ApiGetRange (tail, tail + o1)) w).
  set (events := api_getRange api (tail, tail + o1)).
  exists (after (pushFront events w')). split_and!.
  - erewrite then_settled by done. apply pushFront_settled.
  - by rewrite (proj2 (pushFront_settled _ _)).
  - pose proof (faithful_range _ api_faithful (tail, tail + o1)) as He.
    cbn [andb]. destruct (Z.ltb_spec tail h).
    + by apply (pushFront_holds_none _ _ _ h tail).
    + apply (pushFront_holds _ tail _ h tail); [done|lia|done|lia|lia].
Qed.



(** [move] either takes one of its two early exits or reconciles the
    window with a finite, non-empty range within the bounds. *)
Lemma move_cases (target : num * num) (w : window) :
  ((num_gt (clamp api target w).1 (clamp api target w).2 = true ∨
    Number_isFinite (clamp api target w).1 = false ∨
    Number_isFinite (clamp api target w).2 = false) ∧
   move getScrollHeight api target w =
     chain_then (q_resolve (getScrollHeight (calls w))) w) ∨
  (∃ newHead newTail,
     clamp api target w = (Fin newHead, Fin newTail) ∧
     1 ≤ newHead ≤ newTail ∧ newTail ≤ getMaxCounter api w ∧
     move getScrollHeight api target w =
       chain_then (reconcile getScrollHeight api (getHeadCounter w)
                     (getTailCounter w) newHead newTail) w).
Proof.
  unfold move, clamp, getBoundedRange. destruct target as [lo hi].
  cbn [fst snd].
  destruct lo as [lo| | |], hi as [hi| | |]; cbn;
    try (left; split; [auto|done]).
  all: match goal with
       | |- context [?x <? ?y] => destruct (Z.ltb_spec x y)
       end.
  all: try (left; split; [by left|done]).
  all: right; eexists _, _; split; [done|]; split; [lia|]; split; [lia|done].
Qed.


End Reconciler.

(** ** Sessions *)


Lemma getRecordCount_records (w w' : window) :
  records w' = records w → getRecordCount w' = getRecordCount w.
Proof. unfold getRecordCount. by intros ->. Qed.

Section Sessions.

Variables OUTPUT_EVENT_LIMIT OUTPUT_PAGE_SIZE : Z.
Variable getScrollHeight : list call → Z.






End Sessions.

(** ** The claims *)

(** C8: [getMaxCounter] is the larger of the source's maximum and the
    tail when the source's value is finite, the tail otherwise; it is
    never below the tail. *)
Theorem getMaxCounter_log_bound (api : Source) (w : window) :
  getMaxCounter api w =
    (match api_getMaxCounter api with
     | Fin c => Z.max c (getTailCounter w)
     | _ => getTailCounter w
     end) ∧
  getTailCounter w ≤ getMaxCounter api w.
Proof.
  unfold getMaxCounter.
  destruct (api_getMaxCounter api) as [c| | |]; split; lia.
Qed.

Lemma run_edge_paired (e : edge) (w : window) :
  dom (records w) = dom (uuids w) →
  dom (records (after (run_edge e w))) = dom (uuids (after (run_edge e w))).
Proof.
  intros Hw. destruct e as [events|events|count|count]; cbn [run_edge].
  - rewrite pushFront_run. cbn [after].
    match goal with
    | |- context [foldl store ?w0 ?l0] =>
        destruct (foldl_store_dom l0 w0) as [-> ->]
    end.
    cbn [log_call log_edge records uuids]. by rewrite Hw.
  - rewrite pushBack_run. cbn [after].
    match goal with
    | |- context [foldl store ?w0 ?l0] =>
        destruct (foldl_store_dom l0 w0) as [-> ->]
    end.
    cbn [log_call log_edge records uuids]. by rewrite Hw.
  - destruct (decide (0 < count)).
    + rewrite popFront_run by done. cbn [after].
      match goal with
      | |- context [foldl drop ?w0 ?l0] =>
          destruct (foldl_drop_dom l0 w0) as [-> ->]
      end.
      cbn [log_call log_edge records uuids]. by rewrite Hw.
    + by rewrite popFront_skip by lia.
  - destruct (decide (0 < count)).
    + rewrite popBack_run by done. cbn [after].
      match goal with
      | |- context [foldl drop ?w0 ?l0] =>
          destruct (foldl_drop_dom l0 w0) as [-> ->]
      end.
      cbn [log_call log_edge records uuids]. by rewrite Hw.
    + by rewrite popBack_skip by lia.
Qed.

(** C9: in every state reached from [init] by [pushFront], [pushBack],
    [popFront] and [popBack], [records] and [uuids] have the same keys,
    and one more operation adds the same keys to both and removes the
    same keys from both. *)
Theorem paired_maps (l : list edge) (e : edge) :
  let w := run_edges l init in
  let w' := after (run_edge e w) in
  dom (records w) = dom (uuids w) ∧
  dom (records w') = dom (uuids w') ∧
  dom (records w') ∖ dom (records w) = dom (uuids w') ∖ dom (uuids w) ∧
  dom (records w) ∖ dom (records w') = dom (uuids w) ∖ dom (uuids w').
Proof.
  assert (∀ l, dom (records (run_edges l init))
               = dom (uuids (run_edges l init))) as Hrun.
  { clear l e. intros l.
    assert (dom (records init) = dom (uuids init)) as Hinit
      by (cbn; by rewrite !dom_empty_L).
    revert Hinit. generalize init.
    induction l as [|e l IH]; intros w Hw; [done|].
    cbn [run_edges foldl]. apply IH. by apply run_edge_paired. }
  intros w w'.
  assert (dom (records w) = dom (uuids w)) as Hw by apply Hrun.
  assert (dom (records w') = dom (uuids w')) as Hw'
    by (by apply run_edge_paired).
  split_and!; [done|done|by rewrite Hw, Hw'|by rewrite Hw, Hw'].
Qed.

(** The sample source is faithful, and sample windows hold a range. *)

Lemma sample_counters (r : range) :
  counter <$> Sample.records_of r = seqZ r.1 (r.2 - r.1 + 1).
Proof.
  unfold Sample.records_of. induction (seqZ r.1 (r.2 - r.1 + 1)) as [|k l IH];
    [done|].
  rewrite !fmap_cons. by rewrite IH.
Qed.

Lemma sample_faithful (max : Z) (first last : range) :
  1 ≤ first.1 → 1 ≤ last.1 → faithful (Sample.source max first last).
Proof.
  intros Hf Hl. split; cbn.
  - intros r. unfold one_per_counter. by rewrite sample_counters.
  - exists first. split; [done|]. unfold one_per_counter. by rewrite sample_counters.
  - exists last. split; [done|]. unfold one_per_counter. by rewrite sample_counters.
Qed.

Lemma holds_list (w : window) (a b : Z) :
  materialized w = list_to_set (seqZ a (b - a + 1)) → holds w a b.
Proof.
  intros E k. rewrite E, elem_of_list_to_set, elem_of_seqZ. lia.
Qed.

(** ** The chain: summary and tasks *)

Lemma foldl_store_set_chain (b : bool) (l : list event) (w : window) :
  foldl store (set_chain b w) l = set_chain b (foldl store w l).
Proof.
  revert w. induction l as [|e l IH]; intros w; [done|].
  cbn [foldl]. by rewrite <- IH.
Qed.

Lemma foldl_drop_set_chain (b : bool) (l : list Z) (w : window) :
  foldl drop (set_chain b w) l = set_chain b (foldl drop w l).
Proof.
  revert w. induction l as [|e l IH]; intros w; [done|].
  cbn [foldl]. by rewrite <- IH.
Qed.

(** Edge operations neither read nor write [this.chain]. *)
Lemma run_edge_set_chain (e : edge) (b : bool) (w : window) :
  run_edge e (set_chain b w) = Settled (set_chain b (after (run_edge e w))) tt.
Proof.
  rewrite edge_settled. f_equal.
  destruct e as [events|events|count|count]; cbn [run_edge].
  - rewrite !pushFront_run. cbn [after]. by rewrite <- foldl_store_set_chain.
  - rewrite !pushBack_run. cbn [after]. by rewrite <- foldl_store_set_chain.
  - destruct (decide (0 < count)).
    + rewrite !popFront_run by done. cbn [after].
      by rewrite <- foldl_drop_set_chain.
    + by rewrite !popFront_skip by lia.
  - destruct (decide (0 < count)).
    + rewrite !popBack_run by done. cbn [after].
      by rewrite <- foldl_drop_set_chain.
    + by rewrite !popBack_skip by lia.
Qed.

Lemma pushFront_set_chain events b w :
  pushFront events (set_chain b w)
  = Settled (set_chain b (after (pushFront events w))) tt.
Proof. apply (run_edge_set_chain (PushFront events)). Qed.

Lemma pushBack_set_chain events b w :
  pushBack events (set_chain b w)
  = Settled (set_chain b (after (pushBack events w))) tt.
Proof. apply (run_edge_set_chain (PushBack events)). Qed.

Lemma popFront_set_chain count b w :
  popFront count (set_chain b w)
  = Settled (set_chain b (after (popFront count w))) tt.
Proof. apply (run_edge_set_chain (PopFront count)). Qed.

Lemma popBack_set_chain count b w :
  popBack count (set_chain b w)
  = Settled (set_chain b (after (popBack count w))) tt.
Proof. apply (run_edge_set_chain (PopBack count)). Qed.

Ltac sequential :=
  unfold mbind, promise_bind, q_then, q_resolve, measure, call_api_getRange;
  repeat first
    [ rewrite popBack_set_chain | rewrite popFront_set_chain
    | rewrite pushBack_set_chain | rewrite pushFront_set_chain
    | progress change (log_call ?c (set_chain ?b ?w))
        with (set_chain b (log_call c w)) ].

Ltac agreed :=
  unfold agree, fulfilled_with, settled, waiting;
  cbn [after fst snd Tasks.this Tasks.promises Tasks.jobs Tasks.this_chain
       set_chain records uuids calls edges lookup list_lookup];
  repeat split.

Lemma run_step (getScrollHeight : list call → Z) (api : Source) (n : nat)
    (h : Tasks.heap) :
  Tasks.run getScrollHeight api (S n) h =
  match Tasks.jobs h with
  | [] => h
  | (r, v) :: rest =>
      Tasks.run getScrollHeight api n
        (Tasks.react getScrollHeight api r v
           {| Tasks.this := Tasks.this h; Tasks.promises := Tasks.promises h;
              Tasks.this_chain := Tasks.this_chain h;
              Tasks.cells := Tasks.cells h; Tasks.jobs := rest |})
  end.
Proof. done. Qed.

(** For every window and every target, [move] as summarised agrees with
    [move] run task by task on a heap at rest: whether the chain is
    settled or not, whether the target is void, overlaps the window, or
    is disjoint from it, in which case neither settles. *)
Lemma move_agrees (limit size : Z) (getScrollHeight : list call → Z)
    (api : Source) (target : num * num) (w : window) :
  agree (move getScrollHeight api target w)
    (Tasks.request limit size getScrollHeight api (Move target) 16
       (Tasks.at_rest w)).
Proof.
  unfold Tasks.request, Tasks.move, move, Tasks.at_rest.
  destruct (getBoundedRange target (Fin 1, Fin (getMaxCounter api w)))
    as [nh nt] eqn:E.
  cbn [Tasks.this]. rewrite E.
  destruct (chain w) eqn:Hc; cycle 1.
  { destruct (num_gt nh nt);
      [rewrite chain_then_unsettled by done; cbn; agreed|].
    destruct nh as [nh| | |], nt as [nt| | |];
      try (rewrite chain_then_unsettled by done; cbn; agreed; fail).
    cbn [getRange]. rewrite chain_then_unsettled by done.
    destruct (getOverlapArray (getHeadCounter w, getTailCounter w) (nh, nt))
      as [[o0 o1]|].
    - destruct (Z.ltb_spec o0 0), (Z.ltb_spec o1 0),
        (Z.ltb_spec 0 o0), (Z.ltb_spec 0 o1); try lia.
      all: cbn; agreed.
    - cbn; agreed. }
  destruct (num_gt nh nt).
  { rewrite chain_then_resolve by done. cbn. agreed. }
  destruct nh as [nh| | |], nt as [nt| | |];
    try (rewrite chain_then_resolve by done; cbn; agreed; fail).
  cbn [getRange]. unfold chain_then. rewrite Hc. unfold reconcile.
  destruct (getOverlapArray (getHeadCounter w, getTailCounter w) (nh, nt))
    as [[o0 o1]|].
  - destruct (Z.ltb_spec o0 0), (Z.ltb_spec o1 0),
      (Z.ltb_spec 0 o0), (Z.ltb_spec 0 o1); try lia.
    all: cbn.
    all: sequential.
    all: agreed.
  - rewrite (then_pending _ _ _ (set_chain false w));
      [|apply then_pending; by apply clear_unsettled].
    cbn -[Tasks.run]. rewrite run_step.
    cbn -[Tasks.run getRecordCount Z.ltb].
    destruct (0 <? getRecordCount w); cbn; agreed.
Qed.

(** The same for the paging operations that go straight to [move]. *)
Lemma paging_agrees (limit size : Z) (getScrollHeight : list call → Z)
    (api : Source) (o : op) (w : window) :
  match o with
  | GetFirst | GetLast => True
  | _ =>
      agree (run_op limit size getScrollHeight api o w)
        (Tasks.request limit size getScrollHeight api o 16 (Tasks.at_rest w))
  end.
Proof.
  destruct o as [target|d|d|d|d| |]; [..|done|done];
    first [ exact (move_agrees limit size getScrollHeight api target w)
          | exact (move_agrees limit size getScrollHeight api _ w) ].
Qed.

(** The summary of the chain checked against the tasks.  In the first
    session every range overlaps the window.  In the second the target of
    the second request is disjoint from the window: the promise of its
    first callback follows the promise [clear] returns, which waits for
    that callback's own chain; nothing runs, then or later.  The same
    happens to the first [move] on an empty window, and to the [moveTail]
    of a [getFirst] whose first page is empty. *)
Example session_agrees :
  agree_along 50 10 Sample.height 64
    [(Sample.source 25 (1, 10) (16, 25), GetFirst);
     (Sample.source 100 (1, 10) (91, 100), Move (Fin 15, Fin 30));
     (Sample.source 100 (1, 10) (91, 100), GetPrevious 5);
     (Sample.source 100 (1, 10) (91, 100), GetNext 30);
     (Sample.source 100 (1, 10) (91, 100), Move (Fin 20, Fin 40));
     (Sample.source 100 (1, 10) (91, 100), Move (NaN, Fin 40));
     (Sample.source 100 (1, 10) (91, 100), MoveHead 3);
     (Sample.source 100 (1, 10) (91, 100), MoveTail (-3));
     (Sample.source 100 (1, 10) (91, 100), GetLast);
     (Sample.source 100 (1, 10) (91, 100), GetFirst)]
    init Tasks.init.
Proof. compute_done. Qed.

Example stuck_session_agrees :
  agree_along 50 10 Sample.height 64
    [(Sample.source 25 (1, 10) (16, 25), GetFirst);
     (Sample.source 100 (1, 10) (91, 100), Move (Fin 40, Fin 50));
     (Sample.source 100 (1, 10) (91, 100), Move (Fin 15, Fin 30));
     (Sample.source 100 (1, 10) (91, 100), Move (Fin 9, Fin 2));
     (Sample.source 100 (1, 10) (91, 100), GetLast)]
    init Tasks.init ∧
  agree_along 50 10 Sample.height 64
    [(Sample.source 100 (1, 10) (91, 100), Move (Fin 4, Fin 5));
     (Sample.source 100 (1, 10) (91, 100), GetFirst)]
    init Tasks.init ∧
  agree_along 50 10 Sample.height 64
    [(Sample.source 100 (1, 0) (91, 100), GetFirst);
     (Sample.source 100 (1, 10) (91, 100), GetLast)]
    init Tasks.init ∧
  move Sample.height (Sample.source 100 (1, 10) (91, 100)) (Fin 40, Fin 50)
    (Sample.window_of (1, 25))
  = Pending (set_chain false (Sample.window_of (1, 25))).
Proof. compute_done. Qed.

(** C1: on a window holding the counters [h..t], [popFront n] and
    [popBack n] with [1 <= n < getRecordCount] delete the entries of both
    maps, and only those, for the counters [t-n..t] and [h..h+n]: that is
    [n + 1] counters at the edge, one more than the [n] asked for. *)
Theorem pop_removes_one_more (w : window) (h t n : Z) :
  holds w h t → 1 ≤ n → n < getRecordCount w →
  (∀ k, records (after (popFront n w)) !! k
        = (if decide (t - n ≤ k ≤ t) then None else records w !! k) ∧
        uuids (after (popFront n w)) !! k
        = (if decide (t - n ≤ k ≤ t) then None else uuids w !! k)) ∧
  (∀ k, records (after (popBack n w)) !! k
        = (if decide (h ≤ k ≤ h + n) then None else records w !! k) ∧
        uuids (after (popBack n w)) !! k
        = (if decide (h ≤ k ≤ h + n) then None else uuids w !! k)) ∧
  getRecordCount (after (popFront n w)) = getRecordCount w - (n + 1) ∧
  getRecordCount (after (popBack n w)) = getRecordCount w - (n + 1).
Proof.
  intros H Hn Hc. pose proof (holds_count _ _ _ H) as Hcount.
  assert (h ≤ t) as Hht by lia.
  pose proof (holds_range _ _ _ H Hht) as [= Hh Ht].
  split_and!.
  - intros k. rewrite popFront_run by lia. cbn [after].
    match goal with
    | |- context [foldl drop ?w0 ?l0] =>
        destruct (foldl_drop_lookup l0 w0 k) as [-> ->]
    end.
    cbn [log_call log_edge records uuids]. rewrite Ht.
    split; repeat case_decide; try done;
      exfalso; rewrite elem_of_downto in *; lia.
  - intros k. rewrite popBack_run by lia. cbn [after].
    match goal with
    | |- context [foldl drop ?w0 ?l0] =>
        destruct (foldl_drop_lookup l0 w0 k) as [-> ->]
    end.
    cbn [log_call log_edge records uuids]. rewrite Hh.
    split; repeat case_decide; try done;
      exfalso; rewrite elem_of_upto in *; lia.
  - rewrite (holds_count _ _ _ (popFront_holds n h t w H Hht ltac:(lia))).
    lia.
  - rewrite (holds_count _ _ _ (popBack_holds n h t w H Hht ltac:(lia))).
    lia.
Qed.

Lemma pop_removes_one_more_witness :
  records (after (popFront 1 (Sample.window_of (1, 3)))) !! 2 = None ∧
  getRecordCount (after (popFront 1 (Sample.window_of (1, 3)))) = 1 ∧
  getRecordCount (after (popBack 1 (Sample.window_of (1, 3)))) = 1.
Proof.
  destruct (pop_removes_one_more (Sample.window_of (1, 3)) 1 3 1)
    as (Hf & _ & Hcf & Hcb).
  - apply holds_list. vm_compute. reflexivity.
  - lia.
  - vm_compute. reflexivity.
  - split_and!.
    + by rewrite (proj1 (Hf 2)).
    + rewrite Hcf. vm_compute. reflexivity.
    + rewrite Hcb. vm_compute. reflexivity.
Defined.

(** C1, the failing input: asked for one counter of [{1, 2, 3}],
    [popFront] and [popBack] each evict two; the sink is told to evict
    the lines of both. *)
Example pop_one_of_three :
  Object_keys (records (after (popFront 1 (Sample.window_of (1, 3))))) = [1] ∧
  Object_keys (uuids (after (popFront 1 (Sample.window_of (1, 3))))) = [1] ∧
  Object_keys (records (after (popBack 1 (Sample.window_of (1, 3))))) = [3] ∧
  Object_keys (uuids (after (popBack 1 (Sample.window_of (1, 3))))) = [3] ∧
  edges (after (popFront 1 (Sample.window_of (1, 3))))
  = [PushFront (Sample.records_of (1, 3)); PopFront 1] ∧
  calls (after (popFront 1 (Sample.window_of (1, 3))))
  = [ApiClearCache; StorageAppend (Sample.records_of (1, 3)); StoragePop 4;
     StorageDeleteRecord (Some "id"); StorageDeleteRecord (Some "id")].
Proof. vm_compute. repeat split. Qed.

(** C4: whatever the displacement, [moveTail] hands [move] the current
    head and a high bound that is never below [getMaxCounter()]:
    [Math.max] replaces every displacement below the room by the whole
    room, a negative one included, and caps none.  Once [move] has applied
    its bounds the target is always [[max(head, 1), getMaxCounter()]]. *)
Theorem moveTail_target_reaches_max (api : Source) (d : Z) (w : window) :
  moveTail_target api d w =
    (getHeadCounter w,
     if d <=? getMaxCounter api w - getTailCounter w
     then getMaxCounter api w
     else getTailCounter w + d) ∧
  clamp api (Fin (moveTail_target api d w).1,
             Fin (moveTail_target api d w).2) w =
    (Fin (Z.max (getHeadCounter w) 1), Fin (getMaxCounter api w)).
Proof.
  unfold moveTail_target, clamp, getBoundedRange, getRange. cbn.
  destruct (Z.leb_spec d (getMaxCounter api w - getTailCounter w));
    split; repeat f_equal; lia.
Qed.

(** C4, the failing input: a retreat by three from [[1, 10]], with a log
    of 100 records, targets [[1, 100]] and not [[1, 7]]; an advance by
    five targets [[1, 100]] as well. *)
Example moveTail_retreat :
  moveTail_target (Sample.source 100 (1, 10) (91, 100)) (-3)
    (Sample.window_of (1, 10)) = (1, 100) ∧
  moveTail_target (Sample.source 100 (1, 10) (91, 100)) 5
    (Sample.window_of (1, 10)) = (1, 100) ∧
  getRange (after (moveTail Sample.height
     (Sample.source 15 (1, 10) (6, 15)) (-3) (Sample.window_of (1, 10))))
  = (1, 15).
Proof. vm_compute. repeat split. Qed.






(** C7: with a limit of 50, the range [[1, 40]] and a log of 100 records,
    [getNext(20)] adds 20 to the tail, 9 to the head and calls
    [move([10, 60])].  In general the tail advances by the step or by the
    room up to [getMaxCounter()], whichever is smaller, and the head rises
    to [newTail - OUTPUT_EVENT_LIMIT] when that is above it, so that the
    target never spans more than the limit. *)
Theorem getNext_capping (getScrollHeight : list call → Z) (api : Source)
    (w : window) :
  getRange w = (1, 40) →
  getMaxCounter api w = 100 →
  getNext_target 50 api 20 w = (1 + 9, 40 + 20) ∧
  getNext 50 getScrollHeight api 20 w
  = move getScrollHeight api (Fin 10, Fin 60) w ∧
  ∀ (limit step : Z) (api' : Source) (w' : window),
    let target := getNext_target limit api' step w' in
    let room := getMaxCounter api' w' - getTailCounter w' in
    target.2 = getTailCounter w' + Z.min room step ∧
    target.1 = Z.max (getHeadCounter w') (target.2 - limit) ∧
    target.2 - target.1 ≤ limit ∧
    target.2 ≤ getMaxCounter api' w' ∧
    getNext limit getScrollHeight api' step w'
    = move getScrollHeight api' (Fin target.1, Fin target.2) w'.
Proof.
  intros Hr Hm.
  assert (getNext_target 50 api 20 w = (10, 60)) as Ht.
  { unfold getNext_target. rewrite Hr, Hm. reflexivity. }
  split; [exact Ht|]. split.
  { unfold getNext, move_to. by rewrite Ht. }
  intros limit step api' w'. unfold getNext, move_to, getNext_target.
  cbn [getRange].
  destruct (Z.ltb_spec limit
              (getTailCounter w' +
               Z.min (getMaxCounter api' w' - getTailCounter w') step
               - getHeadCounter w')); cbn [fst snd];
    split_and!; try done; lia.
Qed.

Lemma getNext_capping_witness :
  getNext_target 50 (Sample.source 100 (1, 10) (91, 100)) 20
    (Sample.window_of (1, 40)) = (10, 60) ∧
  getNext 50 Sample.height (Sample.source 100 (1, 10) (91, 100)) 20
    (Sample.window_of (1, 40))
  = move Sample.height (Sample.source 100 (1, 10) (91, 100))
      (Fin 10, Fin 60) (Sample.window_of (1, 40)).
Proof.
  destruct (getNext_capping Sample.height
              (Sample.source 100 (1, 10) (91, 100))
              (Sample.window_of (1, 40))) as (H1 & H2 & _).
  - vm_compute. reflexivity.
  - vm_compute. reflexivity.
  - split; [exact H1|exact H2].
Defined.



(** What the paging targets span. *)








(** * Further properties *)

(** ** Ranges and counters *)



(** The examples of the two docstrings. *)
Example range_docstrings :
  getOverlapArray (4, 8) (2, 4) = Some (2, -4) ∧
  getOverlapArray (4, 8) (4, 5) = Some (0, -3) ∧
  getOverlapArray (4, 8) (5, 6) = Some (-1, -2) ∧
  getOverlapArray (4, 8) (6, 8) = Some (-2, 0) ∧
  getOverlapArray (4, 6) (6, 8) = Some (-2, 2) ∧
  getOverlapArray (4, 6) (1, 8) = Some (3, 2) ∧
  getOverlapArray (1, 8) (4, 6) = Some (-3, -2) ∧
  getBoundedRange (Fin 2, Fin 6) (Fin 2, Fin 8) = (Fin 2, Fin 6) ∧
  getBoundedRange (Fin 1, Fin 9) (Fin 2, Fin 8) = (Fin 2, Fin 8) ∧
  getBoundedRange (Fin 4, Fin 9) (Fin 2, Fin 8) = (Fin 4, Fin 8).
Proof. repeat split. Qed.

(** X2: [getBoundedRange] is an intersection: it does not depend on the
    order of its arguments, applying the same bounds twice changes nothing,
    on finite bounds it is [[max a c, min b d]], whose counters are those
    of both ranges, and a [NaN] bound stays [NaN]. *)
Theorem getBoundedRange_intersection (r other : num * num) (a b c d k : Z) :
  getBoundedRange r other = getBoundedRange other r ∧
  getBoundedRange (getBoundedRange r other) other = getBoundedRange r other ∧
  getBoundedRange (Fin a, Fin b) (Fin c, Fin d)
  = (Fin (Z.max a c), Fin (Z.min b d)) ∧
  (Z.max a c ≤ k ≤ Z.min b d ↔ a ≤ k ≤ b ∧ c ≤ k ≤ d) ∧
  (getBoundedRange (NaN, r.2) other).1 = NaN ∧
  (getBoundedRange (r.1, NaN) other).2 = NaN.
Proof.
  destruct r as [r1 r2], other as [o1 o2].
  split_and!; try done; try lia.
  - unfold getBoundedRange, Math_max, Math_min. cbn [fst snd].
    destruct r1, o1, r2, o2; try done;
      (f_equal; try done; apply (f_equal Fin); lia).
  - unfold getBoundedRange, Math_max, Math_min. cbn [fst snd].
    destruct r1, o1, r2, o2; try done;
      (f_equal; try done; apply (f_equal Fin); lia).
Qed.

Lemma extremes (w : window) :
  (materialized w = ∅ ∧ getRange w = (0, 0)) ∨
  (getHeadCounter w ∈ materialized w ∧ getTailCounter w ∈ materialized w ∧
   ∀ k, k ∈ materialized w → getHeadCounter w ≤ k ≤ getTailCounter w).
Proof.
  unfold getRange.
  destruct (getHeadCounter_spec w) as [[He ->]|[Hh Hmin]].
  - left. destruct (getTailCounter_spec w) as [[_ ->]|[Ht _]]; [done|].
    rewrite He in Ht. by apply not_elem_of_empty in Ht.
  - right. destruct (getTailCounter_spec w) as [[He _]|[Ht Hmax]].
    + rewrite He in Hh. by apply not_elem_of_empty in Hh.
    + split_and!; [done..|]. intros k Hk.
      split; [by apply Hmin|by apply Hmax].
Qed.

Lemma materialized_within (w : window) (k : Z) :
  k ∈ materialized w → getHeadCounter w ≤ k ≤ getTailCounter w.
Proof.
  intros Hk. destruct (extremes w) as [[He _]|(_ & _ & Hb)]; [|by apply Hb].
  rewrite He in Hk. by apply not_elem_of_empty in Hk.
Qed.

(** X3: the head and the tail are the least and the greatest
    materialized counter, both [0] when nothing is materialized; the record
    count is zero exactly then, and the capacity never exceeds the
    limit. *)
Theorem head_tail_extremes (limit : Z) (w : window) :
  getHeadCounter w ≤ getTailCounter w ∧
  0 ≤ getRecordCount w ∧
  getCapacity limit w ≤ limit ∧
  (getRecordCount w = 0 ↔ materialized w = ∅) ∧
  ((materialized w = ∅ ∧ getRange w = (0, 0)) ∨
   (getHeadCounter w ∈ materialized w ∧ getTailCounter w ∈ materialized w ∧
    ∀ k, k ∈ materialized w → getHeadCounter w ≤ k ≤ getTailCounter w)).
Proof.
  pose proof (extremes w) as H.
  split_and!; [| | | |done].
  - destruct H as [[_ [= -> ->]]|(Hh & _ & Hb)]; [done|]. apply (Hb _ Hh).
  - unfold getRecordCount. lia.
  - unfold getCapacity, getRecordCount. lia.
  - unfold getRecordCount, Object_keys, materialized. split.
    + intros E. apply leibniz_equiv, size_empty_inv.
      change (length (elements (dom (records w))) = 0%nat). lia.
    + intros ->. by rewrite elements_empty.
Qed.

(** X4: on a non-empty window the record count is at most the span of
    the range plus one, and equals it exactly when every counter from head
    to tail is materialized. *)
Theorem count_detects_gaps (w : window) :
  materialized w ≠ ∅ →
  getRecordCount w ≤ getTailCounter w - getHeadCounter w + 1 ∧
  (getRecordCount w = getTailCounter w - getHeadCounter w + 1 ↔
   holds w (getHeadCounter w) (getTailCounter w)).
Proof.
  intros Hne.
  destruct (extremes w) as [[He _]|(Hh & Ht & Hb)]; [done|].
  set (h := getHeadCounter w) in *. set (t := getTailCounter w) in *.
  assert (h ≤ t) as Hht by apply (Hb _ Hh).
  set (I := list_to_set (seqZ h (t - h + 1)) : gset Z).
  assert (materialized w ⊆ I) as Hsub.
  { intros k Hk. apply elem_of_list_to_set, elem_of_seqZ.
    specialize (Hb k Hk). lia. }
  assert (size I = Z.to_nat (t - h + 1)) as HI.
  { unfold I. rewrite size_list_to_set by apply NoDup_seqZ.
    by rewrite length_seqZ. }
  assert (getRecordCount w = Z.of_nat (size (materialized w))) as Hc by done.
  pose proof (subseteq_size _ _ Hsub) as Hle.
  split; [lia|]. split.
  - intros E k. 
    assert (materialized w = I) as ->.
    { apply set_subseteq_size_eq; [done|lia]. } unfold I. rewrite elem_of_list_to_set, elem_of_seqZ. lia.
  - intros H. rewrite (holds_count _ _ _ H). lia.
Qed.

Lemma count_detects_gaps_witness :
  getRecordCount (Sample.window_of (1, 3))
  ≤ getTailCounter (Sample.window_of (1, 3))
    - getHeadCounter (Sample.window_of (1, 3)) + 1.
Proof.
  refine (proj1 (count_detects_gaps (Sample.window_of (1, 3)) _)).
  intros E.
  assert (1 ∈ materialized (Sample.window_of (1, 3))) as H
    by (apply (holds_list _ 1 3); [vm_compute; reflexivity|lia]).
  rewrite E in H. by apply not_elem_of_empty in H.
Defined.

(** What [forEach] stores. *)
Lemma foldl_store_lookup_other (l : list event) (w : window) (k : Z) :
  k ∉ counter <$> l →
  records (foldl store w l) !! k = records w !! k ∧
  uuids (foldl store w l) !! k = uuids w !! k.
Proof.
  revert w. induction l as [|e l IH]; intros w Hk; [done|].
  cbn [foldl]. rewrite fmap_cons in Hk. apply not_elem_of_cons in Hk as [Hne Hk].
  destruct (IH (store w e) Hk) as [-> ->]. cbn [store records uuids].
  by rewrite !lookup_insert_ne.
Qed.

Lemma foldl_store_lookup (l : list event) (w : window) (e : event) :
  NoDup (counter <$> l) → e ∈ l →
  records (foldl store w l) !! counter e
  = Some (Lines (start_line e) (end_line e)) ∧
  uuids (foldl store w l) !! counter e = Some (uuid e).
Proof.
  revert w. induction l as [|e0 l IH]; intros w Hnd He.
  - by apply elem_of_nil in He.
  - rewrite fmap_cons in Hnd. apply NoDup_cons in Hnd as [Hfresh Hnd].
    cbn [foldl]. apply elem_of_cons in He as [->|He]; [|by apply IH].
    destruct (foldl_store_lookup_other l (store w e0) (counter e0) Hfresh)
      as [-> ->].
    cbn [store records uuids]. by rewrite !lookup_insert_eq.
Qed.

Lemma NoDup_filter_counters (P : event → Prop) `{∀ e, Decision (P e)}
    (l : list event) :
  NoDup (counter <$> l) → NoDup (counter <$> filter P l).
Proof.
  induction l as [|e l IH]; [done|].
  rewrite fmap_cons. intros [Hfresh Hnd]%NoDup_cons.
  rewrite filter_cons. case_decide; [|by apply IH].
  rewrite fmap_cons. apply NoDup_cons. split; [|by apply IH].
  intros (e' & Hc & [_ He']%list_elem_of_filter)%list_elem_of_fmap.
  apply Hfresh. apply list_elem_of_fmap. eauto.
Qed.

(** X5: from a batch with one event per counter, an event above the
    tail is stored by [pushFront] and by [pushBack], under its counter,
    with its lines in [records] and its uuid in [uuids]. *)
Theorem pushes_store_events (events : list event) (w : window) (e : event) :
  NoDup (counter <$> events) → e ∈ events →
  getTailCounter w < counter e →
  records (after (pushFront events w)) !! counter e
  = Some (Lines (start_line e) (end_line e)) ∧
  uuids (after (pushFront events w)) !! counter e = Some (uuid e) ∧
  records (after (pushBack events w)) !! counter e
  = Some (Lines (start_line e) (end_line e)) ∧
  uuids (after (pushBack events w)) !! counter e = Some (uuid e).
Proof.
  intros Hnd He Ht.
  rewrite pushFront_run, pushBack_run. cbn [after].
  split_and!; apply foldl_store_lookup;
    try (by apply NoDup_filter_counters);
    apply list_elem_of_filter; split; try done; by right.
Qed.

Lemma pushes_store_events_witness :
  records (after (pushFront (Sample.records_of (3, 5))
                    (Sample.window_of (1, 3)))) !! 4
  = Some (Lines 8 10).
Proof.
  refine (proj1 (pushes_store_events (Sample.records_of (3, 5))
                   (Sample.window_of (1, 3)) (Sample.record_of 4) _ _ _)).
  - rewrite sample_counters. apply NoDup_seqZ.
  - vm_compute. set_solver.
  - vm_compute. reflexivity.
Defined.

(** ** Pushes *)

(** X6: neither push writes at a counter from head to tail: an entry
    there stays as it is, and a gap there stays a gap. *)
Theorem pushes_keep_entries (events : list event) (w : window) (k : Z) :
  getHeadCounter w ≤ k ≤ getTailCounter w →
  records (after (pushFront events w)) !! k = records w !! k ∧
  uuids (after (pushFront events w)) !! k = uuids w !! k ∧
  records (after (pushBack events w)) !! k = records w !! k ∧
  uuids (after (pushBack events w)) !! k = uuids w !! k.
Proof.
  intros Hk. rewrite pushFront_run, pushBack_run. cbn [after].
  set (front := filter _ events). set (back := filter _ events).
  assert (k ∉ counter <$> front) as Hf.
  { intros (e & -> & [He _]%list_elem_of_filter)%list_elem_of_fmap. lia. }
  assert (k ∉ counter <$> back) as Hb.
  { intros (e & -> & [He _]%list_elem_of_filter)%list_elem_of_fmap. lia. }
  destruct (foldl_store_lookup_other front
              (log_call (StorageAppend front) (log_edge (PushFront events) w))
              k Hf) as [-> ->].
  destruct (foldl_store_lookup_other back
              (log_call (StoragePrepend back) (log_edge (PushBack events) w))
              k Hb) as [-> ->].
  done.
Qed.

Lemma pushes_keep_entries_witness :
  records (after (pushFront (Sample.records_of (2, 5))
                    (Sample.window_of (1, 3)))) !! 2
  = records (Sample.window_of (1, 3)) !! 2.
Proof.
  refine (proj1 (pushes_keep_entries (Sample.records_of (2, 5))
                   (Sample.window_of (1, 3)) 2 _)).
  vm_compute. split; discriminate.
Defined.

(** X7: a push hands the sink, in one call and in the order of the
    batch, just the events it is about to store: none of them at a counter
    that is already materialized, and their counters are what the window
    gains. *)
Theorem pushes_send_what_they_store (events : list event) (w : window) :
  (∃ sent,
     calls (after (pushFront events w)) = calls w ++ [StorageAppend sent] ∧
     sent `sublist_of` events ∧
     (∀ e, e ∈ sent → counter e ∉ materialized w) ∧
     materialized (after (pushFront events w))
     = materialized w ∪ list_to_set (counter <$> sent)) ∧
  (∃ sent,
     calls (after (pushBack events w)) = calls w ++ [StoragePrepend sent] ∧
     sent `sublist_of` events ∧
     (∀ e, e ∈ sent → counter e ∉ materialized w) ∧
     materialized (after (pushBack events w))
     = materialized w ∪ list_to_set (counter <$> sent)).
Proof.
  rewrite pushFront_run, pushBack_run. cbn [after]. unfold materialized.
  split; eexists; rewrite (proj1 (foldl_store_dom _ _)),
    (proj1 (proj2 (foldl_store_fields _ _)));
    (split_and!; [done|apply sublist_filter| |done]).
  - intros e [He _]%list_elem_of_filter Hk.
    apply materialized_within in Hk. lia.
  - intros e [He _]%list_elem_of_filter Hk.
    apply materialized_within in Hk. lia.
Qed.

Lemma filter_nil_Forall {A} (P : A → Prop) `{∀ x, Decision (P x)} (l : list A) :
  Forall (λ x, ¬ P x) l → filter P l = [].
Proof.
  induction 1 as [|x l Hx _ IH]; [done|].
  by rewrite filter_cons, decide_False, IH.
Qed.

(** X8: pushing the same batch to the front again stores nothing and
    hands the sink an empty batch. *)
Theorem pushFront_replay (events : list event) (w : window) :
  let w1 := after (pushFront events w) in
  let w2 := after (pushFront events w1) in
  records w2 = records w1 ∧ uuids w2 = uuids w1 ∧
  calls w2 = calls w1 ++ [StorageAppend []].
Proof.
  intros w1 w2.
  assert (filter (λ e, getTailCounter w1 < counter e) events = []) as Hnil.
  { apply filter_nil_Forall, Forall_forall. intros e He.
    destruct (decide (getTailCounter w < counter e)) as [Hnew|Hold].
    - assert (counter e ∈ materialized w1) as Hk.
      { apply pushFront_materialized. right. split; [|done].
        apply list_elem_of_fmap. eauto. }
      apply materialized_within in Hk. lia.
    - destruct (extremes w) as [[Hem [= _ Ht]]|(_ & Ht & _)].
      + destruct (extremes w1) as [[_ [= _ Ht1]]|(_ & Ht1 & _)]; [lia|].
        apply pushFront_materialized in Ht1 as [Ht1|[_ Ht1]]; [|lia].
        rewrite Hem in Ht1. by apply not_elem_of_empty in Ht1.
      + assert (getTailCounter w ∈ materialized w1) as Hk
          by (apply pushFront_materialized; by left).
        apply materialized_within in Hk. lia. }
  subst w2. rewrite pushFront_run. cbn [after]. cbv zeta. rewrite Hnil. done.
Qed.

(** X9: the same for [pushBack] on a window that is not empty. *)
Theorem pushBack_replay (events : list event) (w : window) :
  materialized w ≠ ∅ →
  let w1 := after (pushBack events w) in
  let w2 := after (pushBack events w1) in
  records w2 = records w1 ∧ uuids w2 = uuids w1 ∧
  calls w2 = calls w1 ++ [StoragePrepend []].
Proof.
  intros Hne w1 w2.
  assert (filter (λ e, counter e < getHeadCounter w1
                       ∨ getTailCounter w1 < counter e) events = []) as Hnil.
  { apply filter_nil_Forall, Forall_forall. intros e He.
    destruct (extremes w) as [[Hem _]|(Hh & Ht & _)]; [done|].
    assert (getHeadCounter w ∈ materialized w1) as Hh1
      by (apply pushBack_materialized; by left).
    assert (getTailCounter w ∈ materialized w1) as Ht1
      by (apply pushBack_materialized; by left).
    apply materialized_within in Hh1, Ht1.
    destruct (decide (counter e < getHeadCounter w
                      ∨ getTailCounter w < counter e)) as [Hnew|Hold]; [|lia].
    assert (counter e ∈ materialized w1) as Hk.
    { apply pushBack_materialized. right. split; [|done].
      apply list_elem_of_fmap. eauto. }
    apply materialized_within in Hk. lia. }
  subst w2. rewrite pushBack_run. cbn [after]. cbv zeta. rewrite Hnil. done.
Qed.

Lemma pushBack_replay_witness :
  records (after (pushBack (Sample.records_of (1, 5))
                    (after (pushBack (Sample.records_of (1, 5))
                              (Sample.window_of (3, 4))))))
  = records (after (pushBack (Sample.records_of (1, 5))
                      (Sample.window_of (3, 4)))).
Proof.
  refine (proj1 (pushBack_replay (Sample.records_of (1, 5))
                   (Sample.window_of (3, 4)) _)).
  intros E.
  assert (3 ∈ materialized (Sample.window_of (3, 4))) as H
    by (apply (holds_list _ 3 4); [vm_compute; reflexivity|lia]).
  rewrite E in H. by apply not_elem_of_empty in H.
Defined.

(** X10: on an empty window the range reads [[0, 0]], so [pushFront]
    stores the events with a positive counter and [pushBack] those with a
    counter other than [0]. *)
Theorem push_onto_empty (events : list event) (w : window) (k : Z) :
  materialized w = ∅ →
  (k ∈ materialized (after (pushFront events w)) ↔
   k ∈ counter <$> events ∧ 0 < k) ∧
  (k ∈ materialized (after (pushBack events w)) ↔
   k ∈ counter <$> events ∧ k ≠ 0).
Proof.
  intros He. rewrite pushFront_materialized, pushBack_materialized.
  destruct (extremes w) as [[_ [= -> ->]]|(Hh & _)].
  - rewrite He. split; (split; [intros [[]%not_elem_of_empty|]|]);
      naive_solver lia.
  - rewrite He in Hh. by apply not_elem_of_empty in Hh.
Qed.

Lemma push_onto_empty_witness :
  3 ∈ materialized (after (pushFront (Sample.records_of (0, 3)) init)) ↔
  3 ∈ counter <$> Sample.records_of (0, 3) ∧ 0 < 3.
Proof.
  refine (proj1 (push_onto_empty (Sample.records_of (0, 3)) init 3 _)).
  reflexivity.
Defined.

(** ** Where [move] lands *)

Ltac test_cases :=
  repeat (cbn [andb negb] in *; match goal with
         | |- context [?x <? ?y] => destruct (Z.ltb_spec x y); try lia
         | |- context [?x =? ?y] => destruct (Z.eqb_spec x y); try lia
         | H : context [?x <? ?y] |- _ => destruct (Z.ltb_spec x y); try lia
         end);
  cbn [andb negb] in *.

Section Landing.

Variable getScrollHeight : list call → Z.
Variable api : Source.
Hypothesis api_faithful : faithful api.

(** Where the callbacks of [move] leave a window that overlaps the
    target [[a, b]]: each trim takes one counter more than the overlap
    asks for, unless that empties the window and a growth follows, which
    then stores the whole of what it fetched. *)
Lemma reconcile_lands (h t a b : Z) (w : window) :
  holds w h t → h ≤ t → 1 ≤ a ≤ b → a ≤ t → h ≤ b →
  ∃ w' v,
    reconcile getScrollHeight api h t a b w = Settled w' v ∧
    chain w' = chain w ∧
    holds w' (if (h <? a) && negb ((a =? t) && (t <? b)) then a + 1 else a)
             (if (b <? t) && negb ((b =? h) && (a <? h)) then b - 1 else b).
Proof.
  intros H Hht Hab Hat Hhb.
  assert (checkRangeOverlap (h, t) (a, b) = true) as Hov
    by (apply checkRangeOverlap_spec; cbn [fst snd]; lia).
  unfold reconcile, getOverlapArray. rewrite Hov. cbn [negb fst snd].
  erewrite then_settled by done.
  destruct (trim_low_holds (h - a) h t w H Hht) as (w1 & E1 & C1 & H1).
  erewrite then_settled by exact E1.
  destruct (trim_high_holds (b - t) _ t w1 H1) as (w2 & E2 & C2 & H2);
    [test_cases; lia|].
  erewrite then_settled by exact E2.
  erewrite then_settled by done.
  destruct (grow_low_holds api api_faithful (h - a) h _ _ w2 H2)
    as (w3 & E3 & C3 & H3); [test_cases; lia|].
  erewrite then_settled by exact E3.
  destruct (grow_high_holds api api_faithful (b - t) t _ _ w3 H3)
    as (w4 & E4 & C4 & H4); [test_cases; lia|].
  erewrite then_settled by exact E4.
  eexists w4, _. split; [done|]. split; [congruence|].
  intros k. rewrite (H4 k). clear - Hht Hab Hat Hhb.
  test_cases; lia.
Qed.

Lemma move_valid (a b : Z) (w : window) :
  1 ≤ a ≤ b → b ≤ getMaxCounter api w →
  move getScrollHeight api (Fin a, Fin b) w =
    chain_then (reconcile getScrollHeight api (getHeadCounter w)
                  (getTailCounter w) a b) w.
Proof.
  intros Hab Hb. unfold move, getBoundedRange, Math_max, Math_min, num_gt.
  cbn [fst snd getRange].
  rewrite Z.max_l, Z.min_l by lia.
  destruct (Z.ltb_spec b a); [lia|done].
Qed.

Lemma move_overlap (a b h t : Z) (w : window) :
  chain w = true → holds w h t → h ≤ t →
  1 ≤ a ≤ b → b ≤ getMaxCounter api w → a ≤ t → h ≤ b →
  ∃ w' v,
    move getScrollHeight api (Fin a, Fin b) w = Settled w' v ∧
    chain w' = true ∧
    holds w' (if (h <? a) && negb ((a =? t) && (t <? b)) then a + 1 else a)
             (if (b <? t) && negb ((b =? h) && (a <? h)) then b - 1 else b).
Proof.
  intros Hc H Hht Hab Hb Hat Hhb. rewrite move_valid by done.
  pose proof (holds_range _ _ _ H Hht) as [= -> ->].
  destruct (reconcile_lands h t a b (set_chain false w))
    as (w' & v & E & _ & H'); [done..|].
  exists (set_chain true w'), v. split_and!; [|done|done].
  by apply chain_then_settled.
Qed.

Lemma move_disjoint (a b : Z) (w : window) :
  chain w = true → 1 ≤ a ≤ b → b ≤ getMaxCounter api w →
  materialized w = ∅ ∨ getTailCounter w < a ∨ b < getHeadCounter w →
  move getScrollHeight api (Fin a, Fin b) w = Pending (set_chain false w).
Proof.
  intros Hc Hab Hb Hd. rewrite move_valid by done.
  unfold chain_then. rewrite Hc.
  rewrite reconcile_disjoint; [done| |done].
  pose proof (checkRangeOverlap_spec (getHeadCounter w, getTailCounter w)
                (a, b)) as Hs.
  cbn [fst snd] in Hs.
  change (getHeadCounter (set_chain false w)) with (getHeadCounter w).
  change (getTailCounter (set_chain false w)) with (getTailCounter w).
  destruct (checkRangeOverlap (getHeadCounter w, getTailCounter w) (a, b));
    [|done].
  destruct (extremes w) as [[He [= Eh Et]]|(Hh & Ht & Hm)].
  - rewrite Eh, Et in Hs. destruct Hs as [Hs _]; [lia..|].
    specialize (Hs eq_refl). lia.
  - specialize (Hm _ Hh). destruct Hs as [Hs _]; [lia..|].
    specialize (Hs eq_refl). destruct Hd as [Hd|Hd]; [|lia].
    rewrite Hd in Hh. by apply not_elem_of_empty in Hh.
Qed.

End Landing.

Lemma run_op_unsettled (limit size : Z) (getScrollHeight : list call → Z)
    (api : Source) (o : op) (w : window) :
  chain w = false →
  run_op limit size getScrollHeight api o w = Pending w.
Proof.
  intros Hc.
  assert (∀ target, move getScrollHeight api target w = Pending w) as Hm.
  { intros target.
    destruct (move_cases getScrollHeight api target w)
      as [[_ ->]|(nh & nt & _ & _ & _ & ->)];
      by apply chain_then_unsettled. }
  destruct o; cbn [run_op]; try apply Hm.
  - unfold getFirst. apply then_pending. by apply clear_unsettled.
  - unfold getLast. apply then_pending. by apply clear_unsettled.
Qed.

Lemma run_ops_unsettled (limit size : Z) (getScrollHeight : list call → Z)
    (l : list (Source * op)) (w : window) :
  chain w = false → run_ops limit size getScrollHeight l w = w.
Proof.
  intros Hc. induction l as [|[api o] l IH]; [done|].
  cbn [run_ops foldl]. by rewrite run_op_unsettled.
Qed.

Lemma move_clamped (getScrollHeight : list call → Z) (api : Source)
    (target : num * num) (a b : Z) (w : window) :
  clamp api target w = (Fin a, Fin b) → a ≤ b →
  1 ≤ a ∧ b ≤ getMaxCounter api w ∧
  move getScrollHeight api target w =
    chain_then (reconcile getScrollHeight api (getHeadCounter w)
                  (getTailCounter w) a b) w.
Proof.
  intros Hc Hab.
  destruct (move_cases getScrollHeight api target w)
    as [[Hbad _]|(nh & nt & Hc' & Hnh & Hnt & ->)].
  - exfalso. rewrite Hc in Hbad. cbn in Hbad.
    rewrite (proj2 (Z.ltb_ge _ _)) in Hbad by lia. naive_solver.
  - rewrite Hc in Hc'. injection Hc' as <- <-. split_and!; [lia|lia|done].
Qed.

Lemma clamp_fin (api : Source) (a b : Z) (w : window) :
  clamp api (Fin a, Fin b) w
  = (Fin (Z.max a 1), Fin (Z.min b (getMaxCounter api w))).
Proof. done. Qed.

Lemma move_to_lands (getScrollHeight : list call → Z) (api : Source)
    (r : range) (h t : Z) (w : window) :
  faithful api → chain w = true → holds w h t → h ≤ t →
  let a := Z.max r.1 1 in
  let b := Z.min r.2 (getMaxCounter api w) in
  a ≤ b → a ≤ t → h ≤ b →
  ∃ w' v,
    move_to getScrollHeight api r w = Settled w' v ∧
    chain w' = true ∧
    holds w' (if (h <? a) && negb ((a =? t) && (t <? b)) then a + 1 else a)
             (if (b <? t) && negb ((b =? h) && (a <? h)) then b - 1 else b).
Proof.
  intros Hapi Hc H Hht a b Hab Hat Hhb. unfold move_to.
  destruct (move_clamped getScrollHeight api (Fin r.1, Fin r.2) a b w)
    as (Ha & Hb & ->); [apply clamp_fin|done|].
  pose proof (holds_range _ _ _ H Hht) as [= -> ->].
  destruct (reconcile_lands getScrollHeight api Hapi h t a b
              (set_chain false w)) as (w' & v & E & _ & H'); [done..|lia|done|done|].
  exists (set_chain true w'), v. split_and!; [|done|done].
  by apply chain_then_settled.
Qed.

Lemma move_clamped_disjoint (getScrollHeight : list call → Z) (api : Source)
    (target : num * num) (a b : Z) (w : window) :
  chain w = true →
  clamp api target w = (Fin a, Fin b) → a ≤ b →
  materialized w = ∅ ∨ getTailCounter w < a ∨ b < getHeadCounter w →
  move getScrollHeight api target w = Pending (set_chain false w).
Proof.
  intros Hc Hcl Hab Hd.
  destruct (move_clamped getScrollHeight api target a b w Hcl Hab)
    as (Ha & Hb & Hm).
  rewrite <- (move_disjoint getScrollHeight api a b w); [|done|lia|done|done].
  rewrite Hm. symmetry. by apply move_valid.
Qed.

(** X11: a [move] at rest whose clamped target [[a, b]] overlaps the
    window [[h, t]] settles, with the chain settled again, on the counters
    [[a', b']]: [a' = a + 1] when the head had to rise and [a] otherwise,
    [b' = b - 1] when the tail had to fall and [b] otherwise, save when such
    a trim empties the window and a growth follows on the other edge, which
    then stores its whole answer.  A target that only extends the window is
    reached exactly. *)
Theorem move_lands (getScrollHeight : list call → Z) (api : Source)
    (target : num * num) (a b h t : Z) (w : window) :
  faithful api → chain w = true → holds w h t → h ≤ t →
  clamp api target w = (Fin a, Fin b) → a ≤ b → a ≤ t → h ≤ b →
  ∃ w' v,
    move getScrollHeight api target w = Settled w' v ∧
    chain w' = true ∧
    holds w' (if (h <? a) && negb ((a =? t) && (t <? b)) then a + 1 else a)
             (if (b <? t) && negb ((b =? h) && (a <? h)) then b - 1 else b).
Proof.
  intros Hapi Hc H Hht Hcl Hab Hat Hhb.
  destruct (move_clamped getScrollHeight api target a b w Hcl Hab)
    as (Ha & Hb & ->).
  pose proof (holds_range _ _ _ H Hht) as [= -> ->].
  destruct (reconcile_lands getScrollHeight api Hapi h t a b
              (set_chain false w)) as (w' & v & E & _ & H'); [done..|lia|done|done|].
  exists (set_chain true w'), v. split_and!; [|done|done].
  by apply chain_then_settled.
Qed.

Lemma move_lands_witness :
  ∃ w' v,
    move Sample.height (Sample.source 100 (1, 10) (91, 100))
      (Fin 15, PosInf) (Sample.window_of (10, 20)) = Settled w' v ∧
    chain w' = true ∧ holds w' 16 100.
Proof.
  refine (move_lands Sample.height (Sample.source 100 (1, 10) (91, 100))
            (Fin 15, PosInf) 15 100 10 20 (Sample.window_of (10, 20))
            _ _ _ _ _ _ _ _).
  - by apply sample_faithful.
  - reflexivity.
  - apply holds_list. vm_compute. reflexivity.
  - lia.
  - vm_compute. reflexivity.
  - lia.
  - lia.
  - lia.
Defined.

(** X12: a [move] at rest to a valid target that shares no counter with
    the window, or any valid [move] on an empty window, never settles and
    leaves the window as it was; after it, however many requests follow,
    none settles and none changes anything. *)
Theorem move_disjoint_stalls (getScrollHeight : list call → Z) (api : Source)
    (target : num * num) (a b : Z) (w : window) :
  chain w = true →
  clamp api target w = (Fin a, Fin b) → a ≤ b →
  materialized w = ∅ ∨ getTailCounter w < a ∨ b < getHeadCounter w →
  move getScrollHeight api target w = Pending (set_chain false w) ∧
  ∀ limit size (l : list (Source * op)) (api' : Source) (o : op),
    run_ops limit size getScrollHeight l (set_chain false w)
    = set_chain false w ∧
    run_op limit size getScrollHeight api' o
      (run_ops limit size getScrollHeight l (set_chain false w))
    = Pending (set_chain false w).
Proof.
  intros Hc Hcl Hab Hd. split.
  - by apply (move_clamped_disjoint _ _ _ a b).
  - intros limit size l api' o.
    rewrite run_ops_unsettled by done. split; [done|].
    by apply run_op_unsettled.
Qed.

Lemma move_disjoint_stalls_witness :
  move Sample.height (Sample.source 100 (1, 10) (91, 100)) (Fin 4, Fin 5) init
  = Pending (set_chain false init).
Proof.
  refine (proj1 (move_disjoint_stalls Sample.height
                   (Sample.source 100 (1, 10) (91, 100)) (Fin 4, Fin 5) 4 5
                   init _ _ _ _)).
  - reflexivity.
  - vm_compute. reflexivity.
  - lia.
  - left. reflexivity.
Defined.

(** X13: the same request run task by task: the queue runs empty with
    the maps and logs untouched, and both the promise handed to the caller
    and [this.chain] are left waiting. *)
Theorem move_disjoint_tasks (limit size : Z) (getScrollHeight : list call → Z)
    (api : Source) (target : num * num) (a b : Z) (w : window) :
  chain w = true →
  clamp api target w = (Fin a, Fin b) → a ≤ b →
  materialized w = ∅ ∨ getTailCounter w < a ∨ b < getHeadCounter w →
  let x := Tasks.request limit size getScrollHeight api (Move target) 16
             (Tasks.at_rest w) in
  records (Tasks.this x.1) = records w ∧
  uuids (Tasks.this x.1) = uuids w ∧
  calls (Tasks.this x.1) = calls w ∧
  edges (Tasks.this x.1) = edges w ∧
  Tasks.jobs x.1 = [] ∧
  waiting x.2 ∧
  waiting (Tasks.promises x.1 !! Tasks.this_chain x.1).
Proof.
  intros Hc Hcl Hab Hd x.
  pose proof (move_agrees limit size getScrollHeight api target w) as Hag.
  rewrite (move_clamped_disjoint _ _ _ a b) in Hag by done.
  exact Hag.
Qed.

Lemma move_disjoint_tasks_witness :
  waiting (Tasks.request 50 10 Sample.height
             (Sample.source 100 (1, 10) (91, 100)) (Move (Fin 4, Fin 5)) 16
             (Tasks.at_rest init)).2.
Proof.
  refine (proj1 (proj2 (proj2 (proj2 (proj2 (proj2
            (move_disjoint_tasks 50 10 Sample.height
               (Sample.source 100 (1, 10) (91, 100)) (Fin 4, Fin 5) 4 5
               init _ _ _ _))))))).
  - reflexivity.
  - vm_compute. reflexivity.
  - lia.
  - left. reflexivity.
Defined.

(** ** Paging *)

Lemma getMaxCounter_tail (api : Source) (w : window) :
  getTailCounter w ≤ getMaxCounter api w.
Proof. unfold getMaxCounter. destruct (api_getMaxCounter api); lia. Qed.

(** [clear] at rest settles, with the chain settled again. *)
Lemma clear_settles (w : window) :
  chain w = true →
  ∃ w',
    clear w = Settled w' tt ∧ chain w' = true ∧
    (∀ k, k ∈ materialized w' ↔
          k ∈ materialized w ∧ getHeadCounter w + getRecordCount w < k) ∧
    (dom (records w) = dom (uuids w) → dom (records w') = dom (uuids w')).
Proof.
  intros Hc. unfold clear.
  destruct (Z.ltb_spec 0 (getRecordCount w)) as [Hpos|Hpos].
  - exists (set_chain true (after (popBack (getRecordCount w)
                                     (set_chain false w)))).
    split_and!; [|done| |].
    + apply chain_then_settled; [done|]. apply popBack_settled.
    + intros k.
      change (materialized (set_chain true ?x)) with (materialized x).
      rewrite popBack_materialized by done.
      change (materialized (set_chain false w)) with (materialized w).
      change (getHeadCounter (set_chain false w)) with (getHeadCounter w).
      split; [|intros [? ?]; split; [done|lia]].
      intros [Hk Hn]. split; [done|]. apply materialized_within in Hk. lia.
    + intros Hd.
      apply (run_edge_paired (PopBack (getRecordCount w)) (set_chain false w)).
      exact Hd.
  - exists w. unfold chain_wait. rewrite Hc. split_and!; [done..| |done].
    intros k. split; [|by intros [? _]]. intros Hk. exfalso.
    assert (size (materialized w) = 0%nat) as Hs
      by (unfold getRecordCount, Object_keys in Hpos;
          unfold materialized, size, set_size; cbn; lia).
    apply size_empty_inv in Hs. apply (Hs k) in Hk.
    by apply not_elem_of_empty in Hk.
Qed.

Lemma clear_settles_holds (w : window) (h t : Z) :
  chain w = true → holds w h t →
  ∃ w', clear w = Settled w' tt ∧ chain w' = true ∧ holds w' 1 0.
Proof.
  intros Hc H. destruct (clear_settles w Hc) as (w' & E & C & Hm & _).
  exists w'. split_and!; [done..|]. intros k. rewrite (Hm k), (H k).
  destruct (decide (h ≤ t)) as [Hht|Hht]; [|lia].
  pose proof (holds_range _ _ _ H Hht) as [= -> _].
  rewrite (holds_count _ _ _ H). lia.
Qed.

Ltac landed H :=
  let k := fresh "k" in
  intros k; rewrite (H k); cbn [fst snd]; test_cases; lia.

Lemma moveTail_lands (getScrollHeight : list call → Z) (api : Source)
    (d h t : Z) (w : window) :
  faithful api → chain w = true → holds w h t → 1 ≤ h ≤ t →
  ∃ w' v,
    moveTail getScrollHeight api d w = Settled w' v ∧ chain w' = true ∧
    holds w' h (getMaxCounter api w).
Proof.
  intros Hapi Hc H Hht. unfold moveTail, moveTail_target.
  pose proof (holds_range _ _ _ H ltac:(lia)) as ->.
  pose proof (getMaxCounter_tail api w) as Hm.
  pose proof (holds_range _ _ _ H ltac:(lia)) as [= _ Et]. rewrite Et in Hm.
  destruct (move_to_lands getScrollHeight api
              (h, t + Z.max (getMaxCounter api w - t) d) h t w)
    as (w' & v & E & C & H'); [done|done|done|lia|cbn [fst snd]; lia..|].
  exists w', v. split_and!; [done..|]. landed H'.
Qed.

Lemma moveHead_lands (getScrollHeight : list call → Z) (api : Source)
    (d h t : Z) (w : window) :
  faithful api → chain w = true → holds w h t → 1 ≤ h ≤ t → d ≤ 0 →
  ∃ w' v,
    moveHead getScrollHeight api d w = Settled w' v ∧ chain w' = true ∧
    holds w' (Z.max (h + d) 1) t.
Proof.
  intros Hapi Hc H Hht Hd. unfold moveHead, moveHead_target.
  pose proof (holds_range _ _ _ H ltac:(lia)) as ->.
  pose proof (getMaxCounter_tail api w) as Hm.
  pose proof (holds_range _ _ _ H ltac:(lia)) as [= _ Et]. rewrite Et in Hm.
  destruct (move_to_lands getScrollHeight api
              (h + Z.min (h - 1) d, t) h t w)
    as (w' & v & E & C & H'); [done|done|done|lia|cbn [fst snd]; lia..|].
  exists w', v. split_and!; [done..|]. landed H'.
Qed.

(** X14: on a window [[h, t]] at rest, [moveTail] with any displacement
    settles on [[h, getMaxCounter()]]. *)
Theorem moveTail_extends_to_max (getScrollHeight : list call → Z)
    (api : Source) (d h t : Z) (w : window) :
  faithful api → chain w = true → holds w h t → 1 ≤ h ≤ t →
  ∃ w' v,
    moveTail getScrollHeight api d w = Settled w' v ∧ chain w' = true ∧
    holds w' h (getMaxCounter api w) ∧
    getRange w' = (h, getMaxCounter api w) ∧
    getRecordCount w' = getMaxCounter api w - h + 1.
Proof.
  intros Hapi Hc H Hht.
  destruct (moveTail_lands getScrollHeight api d h t w)
    as (w' & v & E & C & H'); [done..|].
  pose proof (getMaxCounter_tail api w) as Hm.
  pose proof (holds_range _ _ _ H ltac:(lia)) as [= _ Et]. rewrite Et in Hm.
  exists w', v. split_and!; [done..| |].
  - apply holds_range; [done|lia].
  - rewrite (holds_count _ _ _ H'). lia.
Qed.

Lemma moveTail_extends_to_max_witness :
  ∃ w' v,
    moveTail Sample.height (Sample.source 15 (1, 10) (6, 15)) (-3)
      (Sample.window_of (1, 10)) = Settled w' v ∧ chain w' = true ∧
    holds w' 1 (getMaxCounter (Sample.source 15 (1, 10) (6, 15))
                  (Sample.window_of (1, 10))) ∧
    getRange w' = (1, getMaxCounter (Sample.source 15 (1, 10) (6, 15))
                        (Sample.window_of (1, 10))) ∧
    getRecordCount w' = getMaxCounter (Sample.source 15 (1, 10) (6, 15))
                          (Sample.window_of (1, 10)) - 1 + 1.
Proof.
  refine (moveTail_extends_to_max Sample.height
            (Sample.source 15 (1, 10) (6, 15)) (-3) 1 10
            (Sample.window_of (1, 10)) _ _ _ _).
  - by apply sample_faithful.
  - reflexivity.
  - apply holds_list. vm_compute. reflexivity.
  - lia.
Defined.

(** X15: [getFirst] at rest, when the first page holds the counters
    [[a, b]], settles on the whole log from [a] to the largest counter
    known, whatever the page size and whatever the window held. *)
Theorem getFirst_loads_log (size : Z) (getScrollHeight : list call → Z)
    (api : Source) (a b h t : Z) (w : window) :
  faithful api → chain w = true → holds w h t →
  one_per_counter (counter <$> api_getFirst api) (a, b) → 1 ≤ a ≤ b →
  ∃ w' v,
    getFirst size getScrollHeight api w = Settled w' v ∧ chain w' = true ∧
    holds w' a (match api_getMaxCounter api with
                | Fin c => Z.max b c
                | _ => b
                end).
Proof.
  intros Hapi Hc H Hp Hab. unfold getFirst.
  destruct (clear_settles_holds w h t Hc H) as (w1 & E1 & C1 & H1).
  rewrite (then_settled _ _ _ _ _ E1).
  erewrite then_settled by done.
  erewrite then_settled by apply pushFront_settled.
  set (w3 := after (pushFront (api_getFirst api) (log_call ApiGetFirst w1))).
  assert (holds w3 a b) as H3
    by (apply (pushFront_holds_none _ _ _ 1 0); [done|lia|done|lia]).
  assert (chain w3 = true) as C3
    by (unfold w3; by rewrite (proj2 (pushFront_settled _ _))).
  destruct (moveTail_lands getScrollHeight api size a b w3)
    as (w' & v & E & C & H'); [done..|].
  exists w', v. split_and!; [done..|].
  revert H'. unfold getMaxCounter.
  by pose proof (holds_range _ _ _ H3 ltac:(lia)) as [= _ ->].
Qed.

Lemma getFirst_loads_log_witness :
  ∃ w' v,
    getFirst 10 Sample.height (Sample.source 60 (1, 10) (51, 60))
      (Sample.window_of (20, 30)) = Settled w' v ∧ chain w' = true ∧
    holds w' 1 (Z.max 10 60).
Proof.
  refine (getFirst_loads_log 10 Sample.height
            (Sample.source 60 (1, 10) (51, 60)) 1 10 20 30
            (Sample.window_of (20, 30)) _ _ _ _ _).
  - by apply sample_faithful.
  - reflexivity.
  - apply holds_list. vm_compute. reflexivity.
  - unfold one_per_counter. cbn [api_getFirst Sample.source].
    by rewrite sample_counters.
  - lia.
Defined.

(** X16: [getLast] at rest, when the last page holds the counters
    [[a, b]] and the page size is not negative, settles on
    [[max(a - OUTPUT_PAGE_SIZE, 1), b]]. *)
Theorem getLast_lands (size : Z) (getScrollHeight : list call → Z)
    (api : Source) (a b h t : Z) (w : window) :
  faithful api → chain w = true → holds w h t →
  one_per_counter (counter <$> api_getLast api) (a, b) → 1 ≤ a ≤ b →
  0 ≤ size →
  ∃ w' v,
    getLast size getScrollHeight api w = Settled w' v ∧ chain w' = true ∧
    holds w' (Z.max (a - size) 1) b.
Proof.
  intros Hapi Hc H Hp Hab Hsize. unfold getLast.
  destruct (clear_settles_holds w h t Hc H) as (w1 & E1 & C1 & H1).
  rewrite (then_settled _ _ _ _ _ E1).
  erewrite then_settled by done.
  erewrite then_settled by apply pushBack_settled.
  set (w3 := after (pushBack (api_getLast api) (log_call ApiGetLast w1))).
  assert (holds w3 a b) as H3
    by (apply (pushBack_holds_none _ _ _ 1 0); [done|lia|done|lia]).
  assert (chain w3 = true) as C3
    by (unfold w3; by rewrite (proj2 (pushBack_settled _ _))).
  destruct (moveHead_lands getScrollHeight api (- size) a b w3)
    as (w' & v & E & C & H'); [done..|lia|].
  exists w', v. split_and!; [done..|].
  by replace (a - size) with (a + - size) by lia.
Qed.

Lemma getLast_lands_witness :
  ∃ w' v,
    getLast 10 Sample.height (Sample.source 60 (1, 10) (51, 60))
      (Sample.window_of (20, 30)) = Settled w' v ∧ chain w' = true ∧
    holds w' (Z.max (51 - 10) 1) 60.
Proof.
  refine (getLast_lands 10 Sample.height
            (Sample.source 60 (1, 10) (51, 60)) 51 60 20 30
            (Sample.window_of (20, 30)) _ _ _ _ _ _).
  - by apply sample_faithful.
  - reflexivity.
  - apply holds_list. vm_compute. reflexivity.
  - unfold one_per_counter. cbn [api_getLast Sample.source].
    by rewrite sample_counters.
  - lia.
  - lia.
Defined.

Lemma move_to_disjoint (getScrollHeight : list call → Z) (api : Source)
    (r : range) (w : window) :
  chain w = true → 1 ≤ r.1 ≤ r.2 → r.2 ≤ getMaxCounter api w →
  materialized w = ∅ ∨ getTailCounter w < r.1 ∨ r.2 < getHeadCounter w →
  move_to getScrollHeight api r w = Pending (set_chain false w).
Proof. intros. by apply move_disjoint. Qed.

(** X17: [getNext] on a window [[h, t]] at rest, with a step that is
    not negative.  While the new span fits the limit the tail advances and
    the head stays.  When the head has to rise and the new head is below
    the old tail, the window ends with exactly [OUTPUT_EVENT_LIMIT] records.
    When the new head lies beyond the old tail, the request never
    settles. *)
Theorem getNext_outcome (limit : Z) (getScrollHeight : list call → Z)
    (api : Source) (d h t : Z) (w : window) :
  faithful api → chain w = true → holds w h t → 1 ≤ h ≤ t →
  0 ≤ d → 0 ≤ limit →
  let newTail := t + Z.min (getMaxCounter api w - t) d in
  (newTail - h ≤ limit →
   ∃ w' v, getNext limit getScrollHeight api d w = Settled w' v ∧
           holds w' h newTail) ∧
  (limit < newTail - h → newTail - limit < t →
   ∃ w' v, getNext limit getScrollHeight api d w = Settled w' v ∧
           holds w' (newTail - limit + 1) newTail ∧
           getRecordCount w' = limit) ∧
  (limit < newTail - h → t < newTail - limit →
   getNext limit getScrollHeight api d w = Pending (set_chain false w)).
Proof.
  intros Hapi Hc H Hht Hd Hl newTail.
  pose proof (getMaxCounter_tail api w) as Hm.
  pose proof (holds_range _ _ _ H ltac:(lia)) as E.
  pose proof E as [= Eh Et]. rewrite Et in Hm.
  assert (getNext_target limit api d w
          = (h + (if limit <? newTail - h then newTail - limit - h else 0),
             newTail)) as Etarget
    by (unfold getNext_target; by rewrite E).
  unfold getNext. rewrite Etarget. subst newTail. split_and!.
  - intros Hfit. rewrite (proj2 (Z.ltb_ge _ _)) by lia.
    destruct (move_to_lands getScrollHeight api
                (h + 0, t + Z.min (getMaxCounter api w - t) d) h t w)
      as (w' & v & E' & C & H'); [done|done|done|lia|cbn [fst snd]; lia..|].
    exists w', v. split; [done|]. landed H'.
  - intros Hover Hin. rewrite (proj2 (Z.ltb_lt _ _)) by lia.
    destruct (move_to_lands getScrollHeight api
                (h + (t + Z.min (getMaxCounter api w - t) d - limit - h),
                 t + Z.min (getMaxCounter api w - t) d) h t w)
      as (w' & v & E' & C & H'); [done|done|done|lia|cbn [fst snd]; lia..|].
    assert (holds w' (t + Z.min (getMaxCounter api w - t) d - limit + 1)
              (t + Z.min (getMaxCounter api w - t) d)) as H''
      by landed H'.
    exists w', v. split_and!; [done|done|].
    rewrite (holds_count _ _ _ H''). lia.
  - intros Hover Hout. rewrite (proj2 (Z.ltb_lt _ _)) by lia.
    apply move_to_disjoint; [done|cbn [fst snd]; lia..|].
    right. left. cbn [fst snd]. lia.
Qed.

Lemma getNext_outcome_witness :
  ∃ w' v,
    getNext 50 Sample.height (Sample.source 100 (1, 10) (91, 100)) 20
      (Sample.window_of (1, 40)) = Settled w' v ∧
    holds w' 11 60 ∧ getRecordCount w' = 50.
Proof.
  refine (proj1 (proj2 (getNext_outcome 50 Sample.height
            (Sample.source 100 (1, 10) (91, 100)) 20 1 40
            (Sample.window_of (1, 40)) _ _ _ _ _ _)) _ _).
  - by apply sample_faithful.
  - reflexivity.
  - apply holds_list. vm_compute. reflexivity.
  - lia.
  - lia.
  - lia.
  - vm_compute. reflexivity.
  - vm_compute. reflexivity.
Defined.

(** X18: [getPrevious] likewise: the head is lowered by the step, at
    most to [1]; when the tail has to fall and the new tail is above the
    old head, the window ends with exactly [OUTPUT_EVENT_LIMIT] records;
    when the new tail lies below the old head, the request never
    settles. *)
Theorem getPrevious_outcome (limit : Z) (getScrollHeight : list call → Z)
    (api : Source) (d h t : Z) (w : window) :
  faithful api → chain w = true → holds w h t → 1 ≤ h ≤ t →
  0 ≤ d → 0 ≤ limit →
  let newHead := h - Z.min (h - 1) d in
  (t - newHead ≤ limit →
   ∃ w' v, getPrevious limit getScrollHeight api d w = Settled w' v ∧
           holds w' newHead t) ∧
  (limit < t - newHead → h < newHead + limit →
   ∃ w' v, getPrevious limit getScrollHeight api d w = Settled w' v ∧
           holds w' newHead (newHead + limit - 1) ∧
           getRecordCount w' = limit) ∧
  (limit < t - newHead → newHead + limit < h →
   getPrevious limit getScrollHeight api d w = Pending (set_chain false w)).
Proof.
  intros Hapi Hc H Hht Hd Hl newHead.
  pose proof (getMaxCounter_tail api w) as Hm.
  pose proof (holds_range _ _ _ H ltac:(lia)) as E.
  pose proof E as [= Eh Et]. rewrite Et in Hm.
  assert (getPrevious_target limit d w
          = (newHead,
             t - (if limit <? t - newHead then t - (newHead + limit) else 0)))
    as Etarget by (unfold getPrevious_target; by rewrite E).
  unfold getPrevious. rewrite Etarget. subst newHead. split_and!.
  - intros Hfit. rewrite (proj2 (Z.ltb_ge _ _)) by lia.
    destruct (move_to_lands getScrollHeight api
                (h - Z.min (h - 1) d, t - 0) h t w)
      as (w' & v & E' & C & H'); [done|done|done|lia|cbn [fst snd]; lia..|].
    exists w', v. split; [done|]. landed H'.
  - intros Hover Hin. rewrite (proj2 (Z.ltb_lt _ _)) by lia.
    destruct (move_to_lands getScrollHeight api
                (h - Z.min (h - 1) d,
                 t - (t - (h - Z.min (h - 1) d + limit))) h t w)
      as (w' & v & E' & C & H'); [done|done|done|lia|cbn [fst snd]; lia..|].
    assert (holds w' (h - Z.min (h - 1) d)
              (h - Z.min (h - 1) d + limit - 1)) as H''
      by landed H'.
    exists w', v. split_and!; [done|done|].
    rewrite (holds_count _ _ _ H''). lia.
  - intros Hover Hout. rewrite (proj2 (Z.ltb_lt _ _)) by lia.
    apply move_to_disjoint; [done|cbn [fst snd]; lia..|].
    right. right. cbn [fst snd]. lia.
Qed.

Lemma getPrevious_outcome_witness :
  ∃ w' v,
    getPrevious 50 Sample.height (Sample.source 100 (1, 10) (91, 100)) 15
      (Sample.window_of (20, 50)) = Settled w' v ∧
    holds w' 5 50.
Proof.
  refine (proj1 (getPrevious_outcome 50 Sample.height
            (Sample.source 100 (1, 10) (91, 100)) 15 20 50
            (Sample.window_of (20, 50)) _ _ _ _ _ _) _).
  - by apply sample_faithful.
  - reflexivity.
  - apply holds_list. vm_compute. reflexivity.
  - lia.
  - lia.
  - lia.
  - lia.
Defined.

(** X19: [moveHead] on a window [[h, t]] at rest: a displacement that
    is not positive lowers the head by it, at most to [1]; a positive one
    is capped by [h - 1] and evicts one counter more than it says; a target
    head above the tail changes nothing. *)
Theorem moveHead_outcome (getScrollHeight : list call → Z) (api : Source)
    (d h t : Z) (w : window) :
  faithful api → chain w = true → holds w h t → 1 ≤ h ≤ t →
  (d ≤ 0 →
   ∃ w' v, moveHead getScrollHeight api d w = Settled w' v ∧
           holds w' (Z.max (h + d) 1) t) ∧
  (0 < d → 1 < h → h + Z.min (h - 1) d ≤ t →
   ∃ w' v, moveHead getScrollHeight api d w = Settled w' v ∧
           holds w' (h + Z.min (h - 1) d + 1) t) ∧
  (t < h + Z.min (h - 1) d →
   moveHead getScrollHeight api d w
   = Settled w (getScrollHeight (calls w))).
Proof.
  intros Hapi Hc H Hht.
  pose proof (getMaxCounter_tail api w) as Hm.
  pose proof (holds_range _ _ _ H ltac:(lia)) as E.
  pose proof E as [= Eh Et]. rewrite Et in Hm.
  split_and!.
  - intros Hd.
    destruct (moveHead_lands getScrollHeight api d h t w)
      as (w' & v & E' & _ & H'); [done..|]. eauto.
  - intros Hd Hh Hin. unfold moveHead, moveHead_target. rewrite E.
    destruct (move_to_lands getScrollHeight api
                (h + Z.min (h - 1) d, t) h t w)
      as (w' & v & E' & C & H'); [done|done|done|lia|cbn [fst snd]; lia..|].
    exists w', v. split; [done|]. landed H'.
  - intros Hout. unfold moveHead, moveHead_target. rewrite E.
    unfold move_to, move, getBoundedRange, Math_max, Math_min, num_gt.
    cbn [fst snd].
    rewrite (proj2 (Z.ltb_lt _ _)) by lia.
    by apply chain_then_resolve.
Qed.

Lemma moveHead_outcome_witness :
  ∃ w' v,
    moveHead Sample.height (Sample.source 100 (1, 10) (91, 100)) (-5)
      (Sample.window_of (3, 9)) = Settled w' v ∧
    holds w' 1 9.
Proof.
  refine (proj1 (moveHead_outcome Sample.height
            (Sample.source 100 (1, 10) (91, 100)) (-5) 3 9
            (Sample.window_of (3, 9)) _ _ _ _) _).
  - by apply sample_faithful.
  - reflexivity.
  - apply holds_list. vm_compute. reflexivity.
  - lia.
  - lia.
Defined.

(** ** Pops and [clear] *)

(** What the second loop of a pop tells the sink. *)
Lemma foldl_drop_calls (l : list Z) (w : window) :
  NoDup l →
  calls (foldl drop w l)
  = calls w ++ ((λ i, StorageDeleteRecord (uuids w !! i)) <$> l).
Proof.
  revert w. induction l as [|i l IH]; intros w Hnd; cbn [foldl].
  - by rewrite fmap_nil, app_nil_r.
  - apply NoDup_cons in Hnd as [Hi Hnd]. rewrite IH by done.
    cbn [drop calls uuids]. rewrite fmap_cons, <- app_assoc. cbn [app].
    do 2 f_equal. apply list_fmap_ext. intros _ j Hj%list_elem_of_lookup_2.
    rewrite lookup_delete_ne; [done|]. by intros ->.
Qed.

Lemma NoDup_downto (max min : Z) : NoDup (downto max min).
Proof. unfold downto. rewrite reverse_Permutation. apply NoDup_seqZ. Qed.

Lemma NoDup_upto (min max : Z) : NoDup (upto min max).
Proof. unfold upto. apply NoDup_seqZ. Qed.

Lemma popBack_last_call (count : Z) (w : window) :
  0 < count →
  last (calls (after (popBack count w)))
  = Some (StorageDeleteRecord (uuids w !! (getHeadCounter w + count))).
Proof.
  intros Hc. rewrite popBack_run by done. cbn [after].
  rewrite foldl_drop_calls by apply NoDup_upto.
  cbn [log_call log_edge calls uuids]. unfold upto.
  replace (getHeadCounter w + count - getHeadCounter w + 1) with (count + 1)
    by lia.
  rewrite seqZ_app by lia.
  rewrite (seqZ_cons _ 1), (seqZ_nil _ (Z.pred 1)) by lia.
  rewrite fmap_app, app_assoc. cbn [fmap list_fmap]. by rewrite last_snoc.
Qed.

(** X20: a pop with a count that is not positive changes neither map
    and tells the sink nothing.  With a positive count it tells the sink
    once how many lines to drop, then [deleteRecord] for each of the
    [count + 1] counters it visits, in the order of the loop, with the uuid
    held there or none. *)
Theorem pop_sink_protocol (count : Z) (w : window) :
  (count ≤ 0 →
   records (after (popFront count w)) = records w ∧
   uuids (after (popFront count w)) = uuids w ∧
   calls (after (popFront count w)) = calls w ∧
   records (after (popBack count w)) = records w ∧
   uuids (after (popBack count w)) = uuids w ∧
   calls (after (popBack count w)) = calls w) ∧
  (0 < count →
   (∃ n, calls (after (popFront count w))
         = calls w ++ StoragePop n ::
             ((λ i, StorageDeleteRecord (uuids w !! i))
                <$> downto (getTailCounter w) (getTailCounter w - count))) ∧
   (∃ n, calls (after (popBack count w))
         = calls w ++ StorageShift n ::
             ((λ i, StorageDeleteRecord (uuids w !! i))
                <$> upto (getHeadCounter w) (getHeadCounter w + count))) ∧
   length (downto (getTailCounter w) (getTailCounter w - count))
   = Z.to_nat (count + 1) ∧
   length (upto (getHeadCounter w) (getHeadCounter w + count))
   = Z.to_nat (count + 1)).
Proof.
  split.
  - intros Hc. by rewrite popFront_skip, popBack_skip.
  - intros Hc. rewrite popFront_run, popBack_run by done. cbn [after].
    rewrite !foldl_drop_calls by (apply NoDup_downto || apply NoDup_upto).
    cbn [log_call log_edge calls uuids]. rewrite <- !app_assoc. cbn [app].
    split_and!; [by eexists|by eexists| |].
    + unfold downto. rewrite length_reverse, length_seqZ. lia.
    + unfold upto. rewrite length_seqZ. lia.
Qed.

Lemma clear_run (w : window) :
  chain w = true →
  clear w =
    Settled (if 0 <? getRecordCount w
             then set_chain true (after (popBack (getRecordCount w)
                                           (set_chain false w)))
             else w) tt.
Proof.
  intros Hc. unfold clear. destruct (0 <? getRecordCount w).
  - apply chain_then_settled; [done|]. apply popBack_settled.
  - unfold chain_wait. by rewrite Hc.
Qed.

(** X21: [clear] at rest settles, with the chain settled again, and
    evicts the materialized counters up to [head + count].  From a window
    that holds a range and whose maps are paired it leaves both maps empty,
    and its last word to the sink is [deleteRecord] without a uuid, for the
    counter past the tail. *)
Theorem clear_evicts (w : window) :
  chain w = true →
  ∃ w',
    clear w = Settled w' tt ∧ chain w' = true ∧
    (∀ k, k ∈ materialized w' ↔
          k ∈ materialized w ∧ getHeadCounter w + getRecordCount w < k) ∧
    (∀ h t, holds w h t → h ≤ t → dom (records w) = dom (uuids w) →
            records w' = ∅ ∧ uuids w' = ∅ ∧
            last (calls w') = Some (StorageDeleteRecord None)).
Proof.
  intros Hc. destruct (clear_settles w Hc) as (w' & E & C & Hm & Hp).
  exists w'. split_and!; [done..|]. intros h t H Hht Hd.
  assert (dom (records w') = ∅) as He.
  { apply set_eq. intros k. rewrite (Hm k), (H k).
    pose proof (holds_range _ _ _ H Hht) as [= -> _].
    rewrite (holds_count _ _ _ H).
    split; [lia|by intros ?%not_elem_of_empty]. }
  split_and!.
  - by apply (dom_empty_inv_L (D := gset Z)).
  - apply (dom_empty_inv_L (D := gset Z)). by rewrite <- Hp.
  - rewrite clear_run in E by done. injection E as <-.
    pose proof (holds_count _ _ _ H) as Hn.
    rewrite (proj2 (Z.ltb_lt _ _)) by lia.
    cbn [set_chain calls]. rewrite popBack_last_call by lia.
    do 2 f_equal. cbn [set_chain uuids].
    change (getHeadCounter (set_chain false w)) with (getHeadCounter w).
    change (getRecordCount (set_chain false w)) with (getRecordCount w).
    pose proof (holds_range _ _ _ H Hht) as [= -> _].
    apply not_elem_of_dom. rewrite <- Hd. intros Hk%H. lia.
Qed.

Lemma clear_evicts_witness :
  ∃ w',
    clear (Sample.window_of (1, 3)) = Settled w' tt ∧ chain w' = true ∧
    (∀ k, k ∈ materialized w' ↔
          k ∈ materialized (Sample.window_of (1, 3)) ∧
          getHeadCounter (Sample.window_of (1, 3))
          + getRecordCount (Sample.window_of (1, 3)) < k) ∧
    (∀ h t, holds (Sample.window_of (1, 3)) h t → h ≤ t →
            dom (records (Sample.window_of (1, 3)))
            = dom (uuids (Sample.window_of (1, 3))) →
            records w' = ∅ ∧ uuids w' = ∅ ∧
            last (calls w') = Some (StorageDeleteRecord None)).
Proof. apply (clear_evicts (Sample.window_of (1, 3))). reflexivity. Defined.

(** X22: empty pages.  [getLast] whose last page is empty settles on an
    empty window.  [getFirst] whose first page is empty settles on an empty
    window when the source reports no positive counter, and never settles
    when it reports one. *)
Theorem empty_pages (size : Z) (getScrollHeight : list call → Z)
    (api : Source) (h t : Z) (w : window) :
  chain w = true → holds w h t →
  (api_getLast api = [] →
   ∃ w' v, getLast size getScrollHeight api w = Settled w' v ∧
           materialized w' = ∅) ∧
  (api_getFirst api = [] →
   match api_getMaxCounter api with
   | Fin c =>
       if 1 <=? c
       then ∃ w', getFirst size getScrollHeight api w = Pending w' ∧
                  materialized w' = ∅
       else ∃ w' v, getFirst size getScrollHeight api w = Settled w' v ∧
                    materialized w' = ∅
   | _ => ∃ w' v, getFirst size getScrollHeight api w = Settled w' v ∧
                  materialized w' = ∅
   end).
Proof.
  intros Hc H.
  destruct (clear_settles_holds w h t Hc H) as (w1 & E1 & C1 & H1).
  assert (materialized w1 = ∅) as He.
  { apply set_eq. intros k. rewrite (H1 k).
    split; [lia|by intros ?%not_elem_of_empty]. }
  assert (∀ c, getRange (log_call c w1) = (0, 0)) as Hr.
  { intros c. destruct (extremes (log_call c w1)) as [[_ ?]|(Hh & _)]; [done|].
    change (materialized (log_call c w1)) with (materialized w1) in Hh.
    rewrite He in Hh. by apply not_elem_of_empty in Hh. }
  split.
  - intros Hl. unfold getLast.
    rewrite (then_settled _ _ _ _ _ E1).
    erewrite then_settled by done. rewrite Hl.
    erewrite then_settled by apply pushBack_settled.
    set (w3 := after (pushBack [] (log_call ApiGetLast w1))).
    assert (records w3 = records w1) as R3 by done.
    assert (getRange w3 = (0, 0)) as Hr3 by apply (Hr ApiGetLast).
    assert (chain w3 = true) as C3 by done.
    unfold moveHead, moveHead_target. rewrite Hr3.
    unfold move_to, move, getBoundedRange, Math_max, Math_min, num_gt.
    cbn [fst snd].
    assert (0 ≤ getMaxCounter api w3) as Hm.
    { pose proof (getMaxCounter_tail api w3) as Hm.
      injection Hr3 as _ Et. rewrite Et in Hm. lia. }
    rewrite (proj2 (Z.ltb_lt _ _)) by lia.
    rewrite chain_then_resolve by done.
    eexists _, _. split; [done|]. unfold materialized. by rewrite R3.
  - intros Hf.
    set (w3 := after (pushFront [] (log_call ApiGetFirst w1))).
    assert (getRange w3 = (0, 0)) as Hr3 by apply (Hr ApiGetFirst).
    assert (chain w3 = true) as C3 by done.
    assert (materialized w3 = ∅) as He3 by done.
    assert (getFirst size getScrollHeight api w
            = moveTail getScrollHeight api size w3) as ->.
    { unfold getFirst.
      rewrite (then_settled _ _ _ _ _ E1).
      erewrite then_settled by done. rewrite Hf.
      by erewrite then_settled by apply pushFront_settled. }
    pose proof Hr3 as [= Eh Et].
    unfold moveTail, moveTail_target. rewrite Hr3.
    assert (getMaxCounter api w3
            = match api_getMaxCounter api with
              | Fin c => Z.max 0 c | _ => 0 end) as Em
      by (unfold getMaxCounter; by rewrite Et).
    destruct (api_getMaxCounter api) as [c| | |] eqn:Ec.
    1: destruct (Z.leb_spec 1 c).
    1: { exists (set_chain false w3). split; [|done].
         apply (move_clamped_disjoint _ _ _ 1 c); [done| |lia|by left].
         rewrite clamp_fin, Em. cbn [fst snd]. do 2 f_equal; lia. }
    all: unfold move_to, move, getBoundedRange, Math_max, Math_min, num_gt;
      cbn [fst snd]; rewrite Em;
      rewrite (proj2 (Z.ltb_lt _ _)) by lia;
      rewrite chain_then_resolve by done;
      eexists _, _; (split; [done|]); done.
Qed.

Lemma empty_pages_witness :
  ∃ w' v,
    getLast 10 Sample.height (Sample.source 100 (1, 10) (1, 0))
      (Sample.window_of (1, 3)) = Settled w' v ∧
    materialized w' = ∅.
Proof.
  refine (proj1 (empty_pages 10 Sample.height
                   (Sample.source 100 (1, 10) (1, 0)) 1 3
                   (Sample.window_of (1, 3)) _ _) _).
  - reflexivity.
  - apply holds_list. vm_compute. reflexivity.
  - reflexivity.
Defined.

(** ** Sessions *)

(** A property of the window that the edge operations keep, and that
    does not depend on the call log or on the chain, is kept by every
    request, whatever the source answers. *)
Section Invariant.

Variable I : window → Prop.
Hypothesis I_chain : ∀ b w, I w → I (set_chain b w).
Hypothesis I_call : ∀ c w, I w → I (log_call c w).
Hypothesis I_edge : ∀ e w, I w → I (after (run_edge e w)).

Variables OUTPUT_EVENT_LIMIT OUTPUT_PAGE_SIZE : Z.
Variable getScrollHeight : list call → Z.

Lemma then_kept {A B} (p : promise A) (f : A → promise B) (w : window) :
  I (after (p w)) → (∀ a w', I w' → I (after (f a w'))) →
  I (after ((p ≫= f) w)).
Proof.
  unfold mbind, promise_bind, q_then. destruct (p w) as [w' a|w']; cbn [after].
  - intros Hw Hf. by apply Hf.
  - done.
Qed.

Lemma chain_then_kept {A} (body : promise A) (w : window) :
  I w → (∀ w', I w' → I (after (body w'))) → I (after (chain_then body w)).
Proof.
  intros Hw Hbody. unfold chain_then. destruct (chain w); [|done].
  specialize (Hbody (set_chain false w) (I_chain _ _ Hw)).
  destruct (body (set_chain false w)); cbn [after] in *; [|done].
  by apply I_chain.
Qed.

Lemma clear_kept (w : window) : I w → I (after (clear w)).
Proof.
  intros Hw. unfold clear. destruct (0 <? getRecordCount w).
  - apply chain_then_kept; [done|]. intros w'. apply (I_edge (PopBack _)).
  - unfold chain_wait. by destruct (chain w).
Qed.

Ltac kept :=
  repeat first
    [ done
    | progress cbv beta iota
    | apply clear_kept
    | apply (I_edge (PushFront _))
    | apply (I_edge (PushBack _))
    | apply (I_edge (PopFront _))
    | apply (I_edge (PopBack _))
    | apply I_call
    | apply then_kept
    | intros ].

Lemma reconcile_kept (api : Source) (h t a b : Z) (w : window) :
  I w → I (after (reconcile getScrollHeight api h t a b w)).
Proof.
  intros Hw. unfold reconcile.
  destruct (getOverlapArray (h, t) (a, b)) as [[o0 o1]|].
  - destruct (o0 <? 0), (o1 <? 0), (0 <? o0), (0 <? o1); kept.
  - kept.
Qed.

Lemma move_kept (api : Source) (target : num * num) (w : window) :
  I w → I (after (move getScrollHeight api target w)).
Proof.
  intros Hw.
  destruct (move_cases getScrollHeight api target w)
    as [[_ ->]|(nh & nt & _ & _ & _ & ->)];
    (apply chain_then_kept; [done|]); intros w' Hw'; [done|].
  by apply reconcile_kept.
Qed.

Lemma run_op_kept (api : Source) (o : op) (w : window) :
  I w →
  I (after (run_op OUTPUT_EVENT_LIMIT OUTPUT_PAGE_SIZE getScrollHeight
              api o w)).
Proof.
  intros Hw. destruct o; cbn [run_op]; try by apply move_kept.
  - unfold getFirst. kept. by apply move_kept.
  - unfold getLast. kept. by apply move_kept.
Qed.

Lemma run_ops_kept (l : list (Source * op)) (w : window) :
  I w → I (run_ops OUTPUT_EVENT_LIMIT OUTPUT_PAGE_SIZE getScrollHeight l w).
Proof.
  revert w. induction l as [|[api o] l IH]; intros w Hw; [done|].
  cbn [run_ops foldl]. apply IH. by apply run_op_kept.
Qed.

End Invariant.

(** X23: whatever the sources answer, a session of requests keeps
    [records] and [uuids] on the same counters. *)
Theorem sessions_keep_maps_paired (limit size : Z)
    (getScrollHeight : list call → Z) (l : list (Source * op)) (w : window) :
  dom (records w) = dom (uuids w) →
  dom (records (run_ops limit size getScrollHeight l w))
  = dom (uuids (run_ops limit size getScrollHeight l w)).
Proof.
  apply (run_ops_kept (λ w, dom (records w) = dom (uuids w))); [done|done|].
  intros e w'. apply run_edge_paired.
Qed.

Lemma sessions_keep_maps_paired_witness :
  dom (records (run_ops 50 10 Sample.height
                  [(Sample.source 25 (1, 10) (16, 25), GetFirst);
                   (Sample.source 100 (1, 10) (91, 100), GetNext 30)] init))
  = dom (uuids (run_ops 50 10 Sample.height
                  [(Sample.source 25 (1, 10) (16, 25), GetFirst);
                   (Sample.source 100 (1, 10) (91, 100), GetNext 30)] init)).
Proof.
  apply (sessions_keep_maps_paired 50 10 Sample.height
           [(Sample.source 25 (1, 10) (16, 25), GetFirst);
            (Sample.source 100 (1, 10) (91, 100), GetNext 30)] init).
  reflexivity.
Defined.

(** X24: for every window, source and request that goes straight to
    [move], the outcome computed from the summary of the chain is the
    outcome of the request run task by task from a heap at rest: same maps
    and logs, no reaction left, and a promise fulfilled with the same
    height or left waiting. *)
Theorem requests_refine_tasks (limit size : Z)
    (getScrollHeight : list call → Z) (api : Source) (o : op) (w : window) :
  o ≠ GetFirst → o ≠ GetLast →
  agree (run_op limit size getScrollHeight api o w)
    (Tasks.request limit size getScrollHeight api o 16 (Tasks.at_rest w)).
Proof.
  intros Hf Hl.
  pose proof (paging_agrees limit size getScrollHeight api o w) as H.
  by destruct o.
Qed.

Lemma requests_refine_tasks_witness :
  agree (run_op 50 10 Sample.height (Sample.source 100 (1, 10) (91, 100))
           (GetNext 20) (Sample.window_of (1, 40)))
    (Tasks.request 50 10 Sample.height (Sample.source 100 (1, 10) (91, 100))
       (GetNext 20) 16 (Tasks.at_rest (Sample.window_of (1, 40)))).
Proof.
  apply (requests_refine_tasks 50 10 Sample.height
           (Sample.source 100 (1, 10) (91, 100)) (GetNext 20)
           (Sample.window_of (1, 40))); discriminate.
Defined.

(** ** What the sink sees *)

Lemma popBack_calls (count : Z) (w : window) :
  0 < count →
  ∃ n, calls (after (popBack count w))
       = calls w ++ StorageShift n ::
           ((λ i, StorageDeleteRecord (uuids w !! i))
              <$> upto (getHeadCounter w) (getHeadCounter w + count)).
Proof.
  intros Hc. rewrite popBack_run by done. cbn [after].
  rewrite foldl_drop_calls by apply NoDup_upto.
  cbn [log_call log_edge calls uuids]. rewrite <- app_assoc. by eexists.
Qed.

Lemma popFront_calls (count : Z) (w : window) :
  0 < count →
  ∃ n, calls (after (popFront count w))
       = calls w ++ StoragePop n ::
           ((λ i, StorageDeleteRecord (uuids w !! i))
              <$> downto (getTailCounter w) (getTailCounter w - count)).
Proof.
  intros Hc. rewrite popFront_run by done. cbn [after].
  rewrite foldl_drop_calls by apply NoDup_downto.
  cbn [log_call log_edge calls uuids]. rewrite <- app_assoc. by eexists.
Qed.

Lemma pushFront_calls (events : list event) (w : window) :
  ∃ sent, sent `sublist_of` events ∧
          calls (after (pushFront events w)) = calls w ++ [StorageAppend sent].
Proof.
  rewrite pushFront_run. cbn [after].
  rewrite (proj1 (proj2 (foldl_store_fields _ _))).
  eexists. split; [|done]. apply sublist_filter.
Qed.

Lemma pushBack_calls (events : list event) (w : window) :
  ∃ sent, sent `sublist_of` events ∧
          calls (after (pushBack events w)) = calls w ++ [StoragePrepend sent].
Proof.
  rewrite pushBack_run. cbn [after].
  rewrite (proj1 (proj2 (foldl_store_fields _ _))).
  eexists. split; [|done]. apply sublist_filter.
Qed.

(** X25: what the sink and the source see of a [move] that slides the
    window.  Forward ([h < a <= t < b]): first [storage.shift] and
    [deleteRecord] for the counters [h..a], then the height is measured,
    and that measurement is what the promise resolves with, then
    [api.getRange([t, b])] and one [storage.append] of records taken from
    its answer.  Backward ([a < h <= b < t]): [storage.pop] and
    [deleteRecord] for [t..b], the measurement, [api.getRange([a, h])] and
    one [storage.prepend]. *)
Theorem slide_protocol (getScrollHeight : list call → Z) (api : Source)
    (a b h t : Z) (w : window) :
  chain w = true → holds w h t → 1 ≤ a → b ≤ getMaxCounter api w →
  (h < a → a ≤ t → t < b →
   ∃ w' n sent,
     let evicted :=
       StorageShift n ::
         ((λ i, StorageDeleteRecord (uuids w !! i)) <$> upto h a) in
     move getScrollHeight api (Fin a, Fin b) w
     = Settled w' (getScrollHeight (calls w ++ evicted)) ∧
     sent `sublist_of` api_getRange api (t, b) ∧
     calls w' = calls w ++ evicted
                ++ [ApiGetRange (t, b); StorageAppend sent]) ∧
  (a < h → h ≤ b → b < t →
   ∃ w' n sent,
     let evicted :=
       StoragePop n ::
         ((λ i, StorageDeleteRecord (uuids w !! i)) <$> downto t b) in
     move getScrollHeight api (Fin a, Fin b) w
     = Settled w' (getScrollHeight (calls w ++ evicted)) ∧
     sent `sublist_of` api_getRange api (a, h) ∧
     calls w' = calls w ++ evicted
                ++ [ApiGetRange (a, h); StoragePrepend sent]).
Proof.
  intros Hc H Ha Hb. split.
  - intros Hha Hat Htb.
    pose proof (holds_range _ _ _ H ltac:(lia)) as [= Eh Et].
    rewrite move_valid by lia. rewrite Eh, Et.
    unfold chain_then. rewrite Hc. unfold reconcile, getOverlapArray.
    rewrite (proj2 (checkRangeOverlap_spec (h, t) (a, b) ltac:(cbn; lia)
                      ltac:(cbn; lia))) by (cbn; lia).
    cbn [negb fst snd].
    rewrite (proj2 (Z.ltb_lt (h - a) 0)), (proj2 (Z.ltb_ge (b - t) 0)),
      (proj2 (Z.ltb_ge 0 (h - a))), (proj2 (Z.ltb_lt 0 (b - t))) by lia.
    sequential.
    destruct (popBack_calls (Z.abs (h - a)) w ltac:(lia)) as (n & En).
    set (w1 := after (popBack (Z.abs (h - a)) w)) in *.
    replace (t + (b - t)) with b by lia.
    destruct (pushFront_calls (api_getRange api (t, b))
                (log_call (ApiGetRange (t, b)) w1)) as (sent & Hs & Es).
    eexists _, n, sent. cbv zeta. split_and!.
    + f_equal. cbn [set_chain calls]. rewrite En, Eh.
      by replace (h + Z.abs (h - a)) with a by lia.
    + done.
    + cbn [set_chain calls]. rewrite Es. cbn [log_call calls].
      rewrite En, Eh. replace (h + Z.abs (h - a)) with a by lia.
      by rewrite <- !app_assoc.
  - intros Hah Hhb Hbt.
    pose proof (holds_range _ _ _ H ltac:(lia)) as [= Eh Et].
    rewrite move_valid by lia. rewrite Eh, Et.
    unfold chain_then. rewrite Hc. unfold reconcile, getOverlapArray.
    rewrite (proj2 (checkRangeOverlap_spec (h, t) (a, b) ltac:(cbn; lia)
                      ltac:(cbn; lia))) by (cbn; lia).
    cbn [negb fst snd].
    rewrite (proj2 (Z.ltb_ge (h - a) 0)), (proj2 (Z.ltb_lt (b - t) 0)),
      (proj2 (Z.ltb_lt 0 (h - a))), (proj2 (Z.ltb_ge 0 (b - t))) by lia.
    sequential.
    destruct (popFront_calls (Z.abs (b - t)) w ltac:(lia)) as (n & En).
    set (w1 := after (popFront (Z.abs (b - t)) w)) in *.
    replace (h - (h - a)) with a by lia.
    destruct (pushBack_calls (api_getRange api (a, h))
                (log_call (ApiGetRange (a, h)) w1)) as (sent & Hs & Es).
    eexists _, n, sent. cbv zeta. split_and!.
    + f_equal. cbn [set_chain calls]. rewrite En, Et.
      by replace (t - Z.abs (b - t)) with b by lia.
    + done.
    + cbn [set_chain calls]. rewrite Es. cbn [log_call calls].
      rewrite En, Et. replace (t - Z.abs (b - t)) with b by lia.
      by rewrite <- !app_assoc.
Qed.

Lemma slide_protocol_witness :
  ∃ w' n sent,
    let w := Sample.window_of (10, 20) in
    let api := Sample.source 100 (1, 10) (91, 100) in
    let evicted :=
      StorageShift n ::
        ((λ i, StorageDeleteRecord (uuids w !! i)) <$> upto 10 15) in
    move Sample.height api (Fin 15, Fin 25) w
    = Settled w' (Sample.height (calls w ++ evicted)) ∧
    sent `sublist_of` api_getRange api (20, 25) ∧
    calls w' = calls w ++ evicted ++ [ApiGetRange (20, 25); StorageAppend sent].
Proof.
  refine (proj1 (slide_protocol Sample.height
                   (Sample.source 100 (1, 10) (91, 100)) 15 25 10 20
                   (Sample.window_of (10, 20)) _ _ _ _) _ _ _).
  - reflexivity.
  - apply holds_list. vm_compute. reflexivity.
  - lia.
  - vm_compute. discriminate.
  - lia.
  - lia.
  - lia.
Defined.
